(** * music_seen_player: playlist, playback and visualizer, verified

    A shallow embedding of the player's React component ([App]) and of the
    canvas [Visualizer].  Every event handler is an atomic transition on a
    [World]: the component's [useState] cells, its refs, and the part of
    the browser the handlers talk to (the audio element, the object-URL
    store, [crypto.randomUUID], the outbound request log).

    Answers of the browser that the code cannot predict are arguments of
    the handler that asks for them: whether [audio.play()] resolves, the
    value of [Math.random()], the outcome of the text-generation call.

    JavaScript numbers that hold indices and byte sums are integers ([Z],
    [nat]); the visualizer's averages and the volume are exact rationals
    ([Q]) where the browser has IEEE doubles. *)

From Stdlib Require Import ZArith QArith Qround String Ascii Lia.
From stdpp Require Import gmap strings list pretty.

Local Open Scope string_scope.
Local Open Scope Z_scope.

(** ** Data model *)

(** The browser's [File]: the code reads [name] and [type]; [f_blob] stands
    for the identity of the underlying handle. *)
Record File := {
  f_name : string;
  f_type : string;
  f_blob : nat
}.

Module Track.
(** [interface Track { file: File; id: string; name: string }] *)
Record t := {
  file : File;
  id : string;
  name : string
}.
End Track.

Module Audio.
(** The part of the [<audio>] element the handlers read or write.  [src] is
    [None] for the empty string (falsy in the source's [if (audio.src)]). *)
Record t := {
  src : option nat;
  paused : bool;
  currentTime : Q;
  volume : Q
}.

Definition fresh : t :=
  {| src := None; paused := true; currentTime := 0%Q; volume := 1%Q |}.

Definition set_src (u : nat) (a : t) : t :=
  {| src := Some u; paused := true; currentTime := 0%Q; volume := volume a |}.

(** [audio.play()]: the element starts when the browser lets it. *)
Definition play (ok : bool) (a : t) : t :=
  {| src := src a; paused := if ok then false else paused a;
     currentTime := currentTime a; volume := volume a |}.

Definition pause (a : t) : t :=
  {| src := src a; paused := true;
     currentTime := currentTime a; volume := volume a |}.

Definition set_currentTime (q : Q) (a : t) : t :=
  {| src := src a; paused := paused a; currentTime := q; volume := volume a |}.

Definition set_volume (q : Q) (a : t) : t :=
  {| src := src a; paused := paused a;
     currentTime := currentTime a; volume := q |}.
End Audio.

Inductive AudioContextState := suspended | running.

(** [AnalyserNode]: only [fftSize] is configured; the Web Audio API defines
    [frequencyBinCount] as half of it. *)
Record AnalyserNode := { fftSize : nat }.

Definition frequencyBinCount (a : AnalyserNode) : nat := (fftSize a / 2)%nat.

(** One request of [ai.models.generateContent]. *)
Record GenerateContent := {
  model : string;
  contents : string
}.

(** The [useState] cells of [App] ([currentTime] and [duration] only mirror
    the audio element for display and are left out). *)
Record State := {
  playlist : list Track.t;
  currentTrackIndex : Z;
  isPlaying : bool;
  volume : Q;
  isMuted : bool;
  isShuffle : bool;
  aiAnalysis : string;
  isAnalyzing : bool
}.

(** The [useRef] cells. *)
Record Refs := {
  audioRef : option Audio.t;
  audioContextRef : option AudioContextState;
  analyserRef : option AnalyserNode;
  sourceRef : bool
}.

(** The browser behind the handlers: the object URLs created and not yet
    revoked (URL to blob), the number of URLs and of UUIDs handed out so
    far, and the requests sent to the text-generation service. *)
Record Browser := {
  objectURLs : gmap nat File;
  urlCount : nat;
  uuidCount : nat;
  requests : list GenerateContent
}.

Record World := {
  st : State;
  refs : Refs;
  env : Browser
}.

(** *** Setters *)

Definition setPlaylist (v : list Track.t) (w : World) : World :=
  let s := st w in
  {| st := {| playlist := v; currentTrackIndex := currentTrackIndex s;
              isPlaying := isPlaying s; volume := volume s;
              isMuted := isMuted s; isShuffle := isShuffle s;
              aiAnalysis := aiAnalysis s; isAnalyzing := isAnalyzing s |};
     refs := refs w; env := env w |}.

Definition setCurrentTrackIndex (v : Z) (w : World) : World :=
  let s := st w in
  {| st := {| playlist := playlist s; currentTrackIndex := v;
              isPlaying := isPlaying s; volume := volume s;
              isMuted := isMuted s; isShuffle := isShuffle s;
              aiAnalysis := aiAnalysis s; isAnalyzing := isAnalyzing s |};
     refs := refs w; env := env w |}.

Definition setIsPlaying (v : bool) (w : World) : World :=
  let s := st w in
  {| st := {| playlist := playlist s;
              currentTrackIndex := currentTrackIndex s;
              isPlaying := v; volume := volume s;
              isMuted := isMuted s; isShuffle := isShuffle s;
              aiAnalysis := aiAnalysis s; isAnalyzing := isAnalyzing s |};
     refs := refs w; env := env w |}.

Definition setVolume (v : Q) (w : World) : World :=
  let s := st w in
  {| st := {| playlist := playlist s;
              currentTrackIndex := currentTrackIndex s;
              isPlaying := isPlaying s; volume := v;
              isMuted := isMuted s; isShuffle := isShuffle s;
              aiAnalysis := aiAnalysis s; isAnalyzing := isAnalyzing s |};
     refs := refs w; env := env w |}.

Definition setIsMuted (v : bool) (w : World) : World :=
  let s := st w in
  {| st := {| playlist := playlist s;
              currentTrackIndex := currentTrackIndex s;
              isPlaying := isPlaying s; volume := volume s;
              isMuted := v; isShuffle := isShuffle s;
              aiAnalysis := aiAnalysis s; isAnalyzing := isAnalyzing s |};
     refs := refs w; env := env w |}.

Definition setIsShuffle (v : bool) (w : World) : World :=
  let s := st w in
  {| st := {| playlist := playlist s;
              currentTrackIndex := currentTrackIndex s;
              isPlaying := isPlaying s; volume := volume s;
              isMuted := isMuted s; isShuffle := v;
              aiAnalysis := aiAnalysis s; isAnalyzing := isAnalyzing s |};
     refs := refs w; env := env w |}.

Definition setAiAnalysis (v : string) (w : World) : World :=
  let s := st w in
  {| st := {| playlist := playlist s;
              currentTrackIndex := currentTrackIndex s;
              isPlaying := isPlaying s; volume := volume s;
              isMuted := isMuted s; isShuffle := isShuffle s;
              aiAnalysis := v; isAnalyzing := isAnalyzing s |};
     refs := refs w; env := env w |}.

Definition setIsAnalyzing (v : bool) (w : World) : World :=
  let s := st w in
  {| st := {| playlist := playlist s;
              currentTrackIndex := currentTrackIndex s;
              isPlaying := isPlaying s; volume := volume s;
              isMuted := isMuted s; isShuffle := isShuffle s;
              aiAnalysis := aiAnalysis s; isAnalyzing := v |};
     refs := refs w; env := env w |}.

(** [audioRef.current] updated in place by [f], when the element is there. *)
Definition onAudio (f : Audio.t → Audio.t) (w : World) : World :=
  let r := refs w in
  {| st := st w;
     refs := {| audioRef := f <$> audioRef r;
                audioContextRef := audioContextRef r;
                analyserRef := analyserRef r; sourceRef := sourceRef r |};
     env := env w |}.

(** *** The object-URL store *)

(** [URL.createObjectURL(file)]: a URL never handed out before. *)
Definition createObjectURL (f : File) (w : World) : nat * World :=
  let b := env w in
  (urlCount b,
   {| st := st w; refs := refs w;
      env := {| objectURLs := <[urlCount b := f]> (objectURLs b);
                urlCount := S (urlCount b);
                uuidCount := uuidCount b; requests := requests b |} |}).

(** [URL.revokeObjectURL(url)] *)
Definition revokeObjectURL (u : nat) (w : World) : World :=
  let b := env w in
  {| st := st w; refs := refs w;
     env := {| objectURLs := delete u (objectURLs b);
               urlCount := urlCount b;
               uuidCount := uuidCount b; requests := requests b |} |}.

(** The transient URLs outstanding in [w]. *)
Definition outstanding (w : World) : gset nat := dom (objectURLs (env w)).

(** The [<audio>] element once mounted: the effect on [volume, isMuted] has
    run with the initial volume. *)
Definition mounted : Audio.t := Audio.set_volume (8 # 10)%Q Audio.fresh.

(** The state of [App] after its first render. *)
Definition init : World :=
  {| st := {| playlist := []; currentTrackIndex := -1; isPlaying := false;
              volume := (8 # 10)%Q; isMuted := false; isShuffle := false;
              aiAnalysis := ""; isAnalyzing := false |};
     refs := {| audioRef := Some mounted; audioContextRef := None;
                analyserRef := None; sourceRef := false |};
     env := {| objectURLs := ∅; urlCount := 0; uuidCount := 0;
               requests := [] |} |}.

(** ** Playback controller *)

(** [initAudioContext]: built on the first call, with an analyser of
    [fftSize = 256]; resumed when found suspended. *)
Definition initAudioContext (w : World) : World :=
  let r := refs w in
  match audioContextRef r with
  | None =>
      {| st := st w;
         refs := {| audioRef := audioRef r;
                    audioContextRef := Some running;
                    analyserRef := Some {| fftSize := 256 |};
                    sourceRef := bool_decide (is_Some (audioRef r)) || sourceRef r |};
         env := env w |}
  | Some suspended =>
      {| st := st w;
         refs := {| audioRef := audioRef r;
                    audioContextRef := Some running;
                    analyserRef := analyserRef r;
                    sourceRef := sourceRef r |};
         env := env w |}
  | Some running => w
  end.

(** [index < 0 || index >= playlist.length] *)
Definition out_of_range (index : Z) (w : World) : bool :=
  (index <? 0) || (index >=? Z.of_nat (length (playlist (st w)))).

(** [playTrack(index)]; [play_ok] tells whether [audio.play()] resolves. *)
Definition playTrack (play_ok : bool) (index : Z) (w : World) : World :=
  let w := initAudioContext w in
  if out_of_range index w then w else
  match playlist (st w) !! Z.to_nat index, audioRef (refs w) with
  | Some track, Some audio =>
      let w := match Audio.src audio with
               | Some old => revokeObjectURL old w
               | None => w
               end in
      let '(objectUrl, w) := createObjectURL (Track.file track) w in
      let w := onAudio (Audio.set_src objectUrl) w in
      let w := setCurrentTrackIndex index w in
      let w := onAudio (Audio.play play_ok) w in
      setIsPlaying play_ok w
  | _, _ => w
  end.

Definition togglePlay (play_ok : bool) (w : World) : World :=
  match audioRef (refs w) with
  | None => w
  | Some _ =>
      if (currentTrackIndex (st w) =? -1)
         && (0 <? Z.of_nat (length (playlist (st w))))
      then playTrack play_ok 0 w
      else
        let playing := isPlaying (st w) in
        let w := if playing then onAudio Audio.pause w
                 else onAudio (Audio.play play_ok) (initAudioContext w) in
        setIsPlaying (negb playing) w
  end.

(** [Math.floor(Math.random() * playlist.length)] for [rnd] in [0, 1). *)
Definition randomIndex (rnd : Q) (n : Z) : Z := Qfloor (rnd * inject_Z n).

(** [nextTrack]; JavaScript's [%] is the truncating remainder [Z.rem]. *)
Definition nextTrack (rnd : Q) (play_ok : bool) (w : World) : World :=
  let n := Z.of_nat (length (playlist (st w))) in
  if n =? 0 then w else
  let nextIndex :=
    if isShuffle (st w) then randomIndex rnd n
    else Z.rem (currentTrackIndex (st w) + 1) n in
  playTrack play_ok nextIndex w.

Definition prevTrack (play_ok : bool) (w : World) : World :=
  let n := Z.of_nat (length (playlist (st w))) in
  if n =? 0 then w else
  let prevIndex := Z.rem (currentTrackIndex (st w) - 1 + n) n in
  playTrack play_ok prevIndex w.

(** [array.splice(index, 1)]: a negative start counts from the end, a start
    past the end removes nothing. *)
Definition splice1 {A} (index : Z) (l : list A) : list A :=
  let n := Z.of_nat (length l) in
  let start := if index <? 0 then Z.max (n + index) 0 else Z.min index n in
  delete (Z.to_nat start) l.

Definition removeTrack (index : Z) (w : World) : World :=
  let cur := currentTrackIndex (st w) in
  let w := setPlaylist (splice1 index (playlist (st w))) w in
  if index =? cur then
    let w := setIsPlaying false w in
    let w := onAudio (fun a => Audio.set_currentTime 0%Q (Audio.pause a)) w in
    setCurrentTrackIndex (-1) w
  else if index <? cur then setCurrentTrackIndex (cur - 1) w
  else w.

(** The effect on [volume, isMuted]: [audio.volume = isMuted ? 0 : volume]. *)
Definition syncVolume (w : World) : World :=
  onAudio (Audio.set_volume
             (if isMuted (st w) then 0%Q else volume (st w))) w.

(** ** Playlist ingestion *)

(** [file.type.startsWith('audio/')] *)
Definition isAudio (f : File) : bool := String.prefix "audio/" (f_type f).

(** The class [[^/.]] of the extension pattern. *)
Definition extChar (c : ascii) : bool :=
  negb (Ascii.eqb c "/") && negb (Ascii.eqb c ".").

(** [[^/.]+$]: the rest of the string, not empty, all in the class. *)
Definition extTail (s : string) : bool :=
  negb (String.eqb s EmptyString) && forallb extChar (list_ascii_of_string s).

(** [name.replace(/\.[^/.]+$/, EmptyString)]: the leftmost dot followed to
    the end of the name by one or more characters of the class is cut off
    with what follows it; a name with no such dot is returned as it is. *)
Fixpoint stripExtension (s : string) : string :=
  match s with
  | EmptyString => EmptyString
  | String c rest =>
      if Ascii.eqb c "." && extTail rest then EmptyString
      else String c (stripExtension rest)
  end.

Definition drawUUIDs (n : nat) (w : World) : World :=
  let b := env w in
  {| st := st w; refs := refs w;
     env := {| objectURLs := objectURLs b; urlCount := urlCount b;
               uuidCount := (uuidCount b + n)%nat;
               requests := requests b |} |}.

Section Ingestion.

(** [randomUUID k] is the value of the [k]-th call of [crypto.randomUUID()]
    in the session. *)
Variable randomUUID : nat → string.

(** [newFiles.map(file => ({ file, id: crypto.randomUUID(), name: ... }))],
    the first call being the [k]-th of the session. *)
Definition newTracks (k : nat) (newFiles : list File) : list Track.t :=
  imap (λ i file,
          {| Track.file := file;
             Track.id := randomUUID (k + i);
             Track.name := stripExtension (f_name file) |}) newFiles.

Definition handleDrop (files : list File) (w : World) : World :=
  if (0 <? length files)%nat then
    let newFiles := List.filter isAudio files in
    let tracks := newTracks (uuidCount (env w)) newFiles in
    let w := drawUUIDs (length newFiles) w in
    setPlaylist (playlist (st w) ++ tracks) w
  else w.

Definition handleFileSelect (files : list File) (w : World) : World :=
  if (0 <? length files)%nat then
    let newFiles := List.filter isAudio files in
    let tracks := newTracks (uuidCount (env w)) newFiles in
    let w := drawUUIDs (length newFiles) w in
    setPlaylist (playlist (st w) ++ tracks) w
  else w.

End Ingestion.

(** ** AI mood summary *)

(** How [ai.models.generateContent] ends. *)
Inductive Outcome :=
| Rejected
| Resolved (text : string).

Definition dquote : string := String "034"%char EmptyString.
Definition newline : string := String "010"%char EmptyString.

(** [playlist.map(t => t.name).join(', ')] *)
Definition trackNames (l : list Track.t) : string :=
  String.concat ", " (Track.name <$> l).

Definition prompt (names : string) : string :=
  "Analysing the following song list: " ++ names ++ ". " ++ newline
  ++ "        Provide a short, poetic, and cool description in Chinese (Simple Chinese) about the "
  ++ dquote ++ "vibe" ++ dquote ++ " or atmosphere of this playlist. " ++ newline
  ++ "        Are we in a jazz club, a cyberpunk city, or a quiet rainy day? Keep it under 60 words.".

Definition keyMissing : string := "API Key Missing. Cannot analyze.".
Definition connectionError : string :=
  "无法连接到 AI 大脑进行分析 (Connection Error).".

Definition send (r : GenerateContent) (w : World) : World :=
  let b := env w in
  {| st := st w; refs := refs w;
     env := {| objectURLs := objectURLs b; urlCount := urlCount b;
               uuidCount := uuidCount b;
               requests := requests b ++ [r] |} |}.

(** [!process.env.API_KEY]: unset, or the empty string. *)
Definition noKey (API_KEY : option string) : bool :=
  match API_KEY with
  | None => true
  | Some k => String.eqb k EmptyString
  end.

(** [analyzePlaylist], run to its end; [API_KEY] is [process.env.API_KEY]
    and [outcome] the fate of the one request it may send. *)
Definition analyzePlaylist (API_KEY : option string) (outcome : Outcome)
    (w : World) : World :=
  if (length (playlist (st w)) =? 0)%nat then w else
  let w := setIsAnalyzing true w in
  let w := setAiAnalysis EmptyString w in
  if noKey API_KEY then
    let w := setAiAnalysis keyMissing w in
    let w := setIsAnalyzing false w in
    setIsAnalyzing false w
  else
    let w := send {| model := "gemini-2.5-flash";
                     contents := prompt (trackNames (playlist (st w))) |} w in
    let w := match outcome with
             | Resolved text => setAiAnalysis text w
             | Rejected => setAiAnalysis connectionError w
             end in
    setIsAnalyzing false w.

(** ** The component as a transition system *)

Inductive Event :=
| Drop (files : list File)
| FileSelect (files : list File)
| ClickTrack (index : Z) (play_ok : bool)
| ClickPlay (play_ok : bool)
| ClickNext (rnd : Q) (play_ok : bool)
| ClickPrev (play_ok : bool)
| Ended (rnd : Q) (play_ok : bool)
| ClickRemove (index : Z)
| ClickShuffle
| ClickMute
| ChangeVolume (v : Q)
| Seek (t : Q)
| ClickAnalyze (API_KEY : option string) (outcome : Outcome).

Section Component.

Variable randomUUID : nat → string.

Definition handle (e : Event) (w : World) : World :=
  match e with
  | Drop files => handleDrop randomUUID files w
  | FileSelect files => handleFileSelect randomUUID files w
  | ClickTrack index ok => playTrack ok index w
  | ClickPlay ok => togglePlay ok w
  | ClickNext rnd ok => nextTrack rnd ok w
  | ClickPrev ok => prevTrack ok w
  | Ended rnd ok => nextTrack rnd ok w
  | ClickRemove index => removeTrack index w
  | ClickShuffle => setIsShuffle (negb (isShuffle (st w))) w
  | ClickMute => syncVolume (setIsMuted (negb (isMuted (st w))) w)
  | ChangeVolume v => syncVolume (setVolume v w)
  | Seek t => onAudio (Audio.set_currentTime t) w
  | ClickAnalyze key outcome => analyzePlaylist key outcome w
  end.

(** The worlds the component can be in: [init], then any events. *)
Inductive reachable : World → Prop :=
| reachable_init : reachable init
| reachable_step e w : reachable w → reachable (handle e w).

Definition run (es : list Event) (w : World) : World :=
  foldl (λ w e, handle e w) w es.

End Component.

(** ** Visualizer *)

Module Visualizer.

(** A JavaScript number of [draw]: a rational, or [NaN]. *)
Inductive jsnum :=
| NaN
| Num (q : Q).

Definition jsmap (f : Q → Q) (x : jsnum) : jsnum :=
  match x with
  | NaN => NaN
  | Num q => Num (f q)
  end.

(** [const bars = 120] *)
Definition bars : nat := 120.

(** [Math.floor(bufferLength / bars)] *)
Definition step (bufferLength : nat) : nat := (bufferLength / bars)%nat.

(** The bins bar [i] reads: [i * step + j] for [j = 0 .. step - 1]. *)
Definition bins (bufferLength i : nat) : list nat :=
  (λ j, i * step bufferLength + j)%nat <$> seq 0 (step bufferLength).

Definition byteZ (b : Byte.byte) : Z := Z.of_N (Byte.to_N b).

(** [value += dataArray[k]]; a read past the end is [undefined] and turns
    the sum into [NaN] ([None]). *)
Definition accumulate (dataArray : list Byte.byte) (value : option Z)
    (k : nat) : option Z :=
  match value, dataArray !! k with
  | Some v, Some x => Some (v + byteZ x)
  | _, _ => None
  end.

(** The inner loop of [draw] for bar [i], [bufferLength] being the length
    of [dataArray]. *)
Definition chunkSum (dataArray : list Byte.byte) (i : nat) : option Z :=
  foldl (accumulate dataArray) (Some 0) (bins (length dataArray) i).

(** [value = value / step]; with [step = 0] the loop has not run and the
    quotient is [0 / 0]. *)
Definition value (dataArray : list Byte.byte) (i : nat) : jsnum :=
  match chunkSum dataArray i with
  | None => NaN
  | Some v =>
      if (step (length dataArray) =? 0)%nat then NaN
      else Num (inject_Z v / inject_Z (Z.of_nat (step (length dataArray))))%Q
  end.

(** One stroke; [turn] is [i / bars], the angle being [2 * PI * turn]. *)
Record Bar := {
  barValue : jsnum;
  barHeight : jsnum;
  turn : Q;
  hue : Q;
  saturation : jsnum;
  lightness : jsnum
}.

Definition bar (dataArray : list Byte.byte) (i : nat) : Bar :=
  let v := value dataArray i in
  let t := (inject_Z (Z.of_nat i) / inject_Z (Z.of_nat bars))%Q in
  {| barValue := v;
     barHeight := jsmap (λ q, (q / 255) * 100)%Q v;
     turn := t;
     hue := (t * 360)%Q;
     saturation := jsmap (λ q, 80 + (q / 255) * 20)%Q v;
     lightness := jsmap (λ q, 50 + (q / 255) * 10)%Q v |}.

(** One call of [draw]: whether it asked for another frame, and the strokes
    it painted, in order. *)
Record Frame := {
  rescheduled : bool;
  strokes : list Bar
}.

Definition draw (isPlaying : bool) (dataArray : list Byte.byte) : Frame :=
  if isPlaying then
    {| rescheduled := true; strokes := bar dataArray <$> seq 0 bars |}
  else {| rescheduled := false; strokes := [] |}.

(** The arithmetic mean of the [n] bytes of [l] from position [from]. *)
Definition total (l : list Byte.byte) : Z := foldr Z.add 0 (byteZ <$> l).

Definition mean (l : list Byte.byte) (from n : nat) : Q :=
  (inject_Z (total (take n (drop from l))) / inject_Z (Z.of_nat n))%Q.

End Visualizer.

(** ** Predicates of the statements *)

(** [track] is loaded in [w]: the audio element's source is an outstanding
    object URL of the track's file. *)
Definition loaded (track : Track.t) (w : World) : Prop :=
  ∃ a u, audioRef (refs w) = Some a ∧ Audio.src a = Some u
         ∧ objectURLs (env w) !! u = Some (Track.file track).

(** The length of the playlist, as the integer the handlers compute with. *)
Definition size_of (w : World) : Z := Z.of_nat (length (playlist (st w))).

(** The position invariant of the data model: with no active index, the
    playing flag is off. *)
Definition idle_when_none (w : World) : Prop :=
  currentTrackIndex (st w) = -1 → isPlaying (st w) = false.

(** What the URL discipline is about: the store, the number of URLs handed
    out, and the source of the audio element (when mounted). *)
Definition urlview (w : World) : gmap nat File * nat * option (option nat) :=
  (objectURLs (env w), urlCount (env w), Audio.src <$> audioRef (refs w)).

(** The element is mounted, every outstanding URL is its source, and its
    source was handed out by [createObjectURL]. *)
Definition urls_ok (v : gmap nat File * nat * option (option nat)) : Prop :=
  let '(m, c, s) := v in
  is_Some s
  ∧ (∀ u, u ∈ dom m → s = Some (Some u))
  ∧ (∀ u, s = Some (Some u) → (u < c)%nat).

(** What the interface can fire in [w]: the rows of the list carry the
    indices of the playlist. *)
Definition fired_by_ui (e : Event) (w : World) : Prop :=
  match e with
  | ClickTrack index _ | ClickRemove index => 0 ≤ index < size_of w
  | _ => True
  end.

(** Every identifier in the playlist is one of the UUIDs drawn so far. *)
Definition ids_drawn (randomUUID : nat → string) (w : World) : Prop :=
  ∀ t, t ∈ playlist (st w) →
       ∃ k, (k < uuidCount (env w))%nat ∧ Track.id t = randomUUID k.

(** The analyser, once built, is the one [initAudioContext] configures. *)
Definition analyser_ok (w : World) : Prop :=
  ∀ a, analyserRef (refs w) = Some a → fftSize a = 256%nat.

(** The worlds reached through the interface alone. *)
Inductive reachable_ui (randomUUID : nat → string) : World → Prop :=
| reachable_ui_init : reachable_ui randomUUID init
| reachable_ui_step e w :
    reachable_ui randomUUID w → fired_by_ui e w →
    reachable_ui randomUUID (handle randomUUID e w).

(** The audio element is mounted and the active index is the sentinel or
    an index of the playlist. *)
Definition position_ok (w : World) : Prop :=
  is_Some (audioRef (refs w))
  ∧ -1 ≤ currentTrackIndex (st w) < size_of w.

(** *** What the component renders *)

Definition selectMusic : string := "选择音乐 (Select Music)".
Definition addMusicHint : string := "添加音乐以启用 AI 分析...".
Definition pressAnalyzeHint : string := "点击 AI 按钮解读歌单。".

(** The heading:
    [currentTrackIndex !== -1 ? playlist[currentTrackIndex].name : ...];
    reading [.name] of a missing entry throws ([None]). *)
Definition renderTitle (w : World) : option string :=
  let cur := currentTrackIndex (st w) in
  if cur =? -1 then Some selectMusic
  else if cur <? 0 then None
  else Track.name <$> playlist (st w) !! Z.to_nat cur.

(** One row of the list: the track's name, and whether it is drawn as the
    active one ([currentTrackIndex === index]). *)
Record Row := {
  rowName : string;
  rowActive : bool
}.

Record View := {
  title : string;
  showsPause : bool;
  rows : list Row;
  footerCount : nat;
  analysisText : string;
  analyzeDisabled : bool
}.

Definition renderRows (w : World) : list Row :=
  imap (λ index track,
          {| rowName := Track.name track;
             rowActive := currentTrackIndex (st w) =? Z.of_nat index |})
       (playlist (st w)).

(** [aiAnalysis || (playlist.length === 0 ? ... : ...)] *)
Definition renderAnalysis (w : World) : string :=
  if String.eqb (aiAnalysis (st w)) EmptyString then
    if (length (playlist (st w)) =? 0)%nat then addMusicHint
    else pressAnalyzeHint
  else aiAnalysis (st w).

(** The body of [App]'s return, as far as it depends on the state. *)
Definition render (w : World) : option View :=
  match renderTitle w with
  | None => None
  | Some t =>
      Some {| title := t;
              showsPause := isPlaying (st w);
              rows := renderRows w;
              footerCount := length (playlist (st w));
              analysisText := renderAnalysis w;
              analyzeDisabled :=
                isAnalyzing (st w)
                || (length (playlist (st w)) =? 0)%nat |}
  end.

(** [x] is a number, from [lo] to [hi]. *)
Definition between (lo hi : Q) (x : Visualizer.jsnum) : Prop :=
  match x with
  | Visualizer.Num q => (lo <= q <= hi)%Q
  | Visualizer.NaN => False
  end.

(** *** Sample data *)

Definition audioFile (n : string) (blob : nat) : File :=
  {| f_name := n ++ ".mp3"; f_type := "audio/mpeg"; f_blob := blob |}.

Definition fileA : File := audioFile "A" 1.
Definition fileB : File := audioFile "B" 2.
Definition fileC : File := audioFile "C" 3.
Definition cover : File :=
  {| f_name := "cover.png"; f_type := "image/png"; f_blob := 4 |}.

(** A session's UUIDs for the examples: the decimal numerals. *)
Definition sampleUUID : nat → string := pretty.

(** Playlist [A, B, C], nothing selected. *)
Definition threeTracks : World :=
  run sampleUUID [Drop [fileA; cover; fileB; fileC]] init.

(** Playlist [A, B, C] with [B] playing. *)
Definition playingB : World :=
  run sampleUUID [ClickTrack 1 true] threeTracks.

(** Two frequency snapshots of 128 bins: silence, and silence but for full
    magnitude in the eight highest bins. *)
Definition silence : list Byte.byte := replicate 128 Byte.x00.
Definition topBinsFull : list Byte.byte :=
  replicate 120 Byte.x00 ++ replicate 8 Byte.xff.

(** ** Playback controller: navigation and removal *)

Lemma initAudioContext_st w : st (initAudioContext w) = st w.
Proof. unfold initAudioContext. by destruct (audioContextRef _) as [[]|]. Qed.

Lemma initAudioContext_env w : env (initAudioContext w) = env w.
Proof. unfold initAudioContext. by destruct (audioContextRef _) as [[]|]. Qed.

Lemma initAudioContext_audioRef w :
  audioRef (refs (initAudioContext w)) = audioRef (refs w).
Proof. unfold initAudioContext. by destruct (audioContextRef _) as [[]|]. Qed.

Lemma out_of_range_false index w :
  0 ≤ index < size_of w → out_of_range index w = false.
Proof.
  unfold out_of_range, size_of. intros [Hlo Hhi].
  rewrite Z.geb_leb. apply orb_false_iff.
  split; [apply Z.ltb_ge | apply Z.leb_gt]; lia.
Qed.

Lemma in_range_track index w :
  0 ≤ index < size_of w → is_Some (playlist (st w) !! Z.to_nat index).
Proof. unfold size_of. intros H. apply lookup_lt_is_Some. lia. Qed.

(** What [playTrack] does on an index of the playlist, the element mounted. *)
Lemma playTrack_in_range ok index w track audio :
  0 ≤ index < size_of w →
  playlist (st w) !! Z.to_nat index = Some track →
  audioRef (refs w) = Some audio →
  let w' := playTrack ok index w in
  st w' = st (setIsPlaying ok (setCurrentTrackIndex index w))
  ∧ audioRef (refs w')
    = Some (Audio.play ok (Audio.set_src (urlCount (env w)) audio))
  ∧ objectURLs (env w')
    = <[urlCount (env w) := Track.file track]>
        (match Audio.src audio with
         | Some old => delete old (objectURLs (env w))
         | None => objectURLs (env w)
         end).
Proof.
  intros Hr Ht Ha. unfold playTrack.
  assert (Ho : out_of_range index (initAudioContext w) = false).
  { apply out_of_range_false. unfold size_of. by rewrite initAudioContext_st. }
  rewrite Ho, initAudioContext_st, Ht, initAudioContext_audioRef, Ha.
  destruct (Audio.src audio) as [old|]; cbn;
    rewrite ?initAudioContext_st, ?initAudioContext_env,
      ?initAudioContext_audioRef, ?Ha; done.
Qed.

Lemma playTrack_index ok index w audio :
  0 ≤ index < size_of w → audioRef (refs w) = Some audio →
  currentTrackIndex (st (playTrack ok index w)) = index
  ∧ isPlaying (st (playTrack ok index w)) = ok
  ∧ playlist (st (playTrack ok index w)) = playlist (st w).
Proof.
  intros Hr Ha. destruct (in_range_track index w Hr) as [track Ht].
  destruct (playTrack_in_range ok index w track audio Hr Ht Ha) as (-> & _).
  done.
Qed.

Lemma playTrack_loaded ok index w track audio :
  0 ≤ index < size_of w →
  playlist (st w) !! Z.to_nat index = Some track →
  audioRef (refs w) = Some audio →
  loaded track (playTrack ok index w).
Proof.
  intros Hr Ht Ha.
  destruct (playTrack_in_range ok index w track audio Hr Ht Ha)
    as (_ & Haud & Hurls).
  eexists _, (urlCount (env w)). split; [exact Haud|]. split; [done|].
  rewrite Hurls. apply lookup_insert_eq.
Qed.

Lemma size_of_pos w : playlist (st w) ≠ [] → 0 < size_of w.
Proof. unfold size_of. destruct (playlist (st w)); [done | cbn; lia]. Qed.

(** The two index computations, with JavaScript's remainder, against the
    mathematical modulus. *)
Lemma next_index_mod cur n :
  0 < n → -1 ≤ cur < n →
  Z.rem (cur + 1) n = (cur + 1) mod n ∧ 0 ≤ Z.rem (cur + 1) n < n.
Proof.
  intros Hn Hc. rewrite Z.rem_mod_nonneg by lia.
  split; [done | apply Z.mod_pos_bound; lia].
Qed.

Lemma prev_index_mod cur n :
  0 < n → -1 ≤ cur < n →
  Z.rem (cur - 1 + n) n = (cur - 1) mod n ∧ 0 ≤ Z.rem (cur - 1 + n) n < n.
Proof.
  intros Hn Hc. destruct (Z.eq_dec n 1) as [->|Hn1].
  - assert (cur = -1 ∨ cur = 0) as [-> | ->] by lia; by vm_compute.
  - rewrite Z.rem_mod_nonneg by lia.
    replace (cur - 1 + n) with (cur - 1 + 1 * n) by lia.
    rewrite Z_mod_plus_full. split; [done | apply Z.mod_pos_bound; lia].
Qed.

Lemma nextTrack_plays rnd ok w :
  playlist (st w) ≠ [] → isShuffle (st w) = false →
  nextTrack rnd ok w
  = playTrack ok (Z.rem (currentTrackIndex (st w) + 1) (size_of w)) w.
Proof.
  intros Hne Hsh. pose proof (size_of_pos w Hne) as Hpos.
  unfold nextTrack. fold (size_of w). rewrite Hsh.
  by destruct (Z.eqb_spec (size_of w) 0); [lia|].
Qed.

Lemma prevTrack_plays ok w :
  playlist (st w) ≠ [] →
  prevTrack ok w
  = playTrack ok
      (Z.rem (currentTrackIndex (st w) - 1 + size_of w) (size_of w)) w.
Proof.
  intros Hne. pose proof (size_of_pos w Hne) as Hpos.
  unfold prevTrack. fold (size_of w).
  by destruct (Z.eqb_spec (size_of w) 0); [lia|].
Qed.

(** C1.  On a non-empty playlist of [n] tracks, the audio element mounted:
    [previous] moves the active index from [cur] to [(cur - 1) mod n], so
    from index 0 to the last index [n - 1]; with shuffle off, [next] moves
    it to [(cur + 1) mod n], so from the last index to index 0. *)
Theorem next_prev_wraparound (rnd : Q) (ok : bool) (w : World) audio :
  playlist (st w) ≠ [] →
  audioRef (refs w) = Some audio →
  -1 ≤ currentTrackIndex (st w) < size_of w →
  let cur := currentTrackIndex (st w) in
  let n := size_of w in
  (isShuffle (st w) = false →
   currentTrackIndex (st (nextTrack rnd ok w)) = (cur + 1) mod n
   ∧ (cur = n - 1 → currentTrackIndex (st (nextTrack rnd ok w)) = 0))
  ∧ currentTrackIndex (st (prevTrack ok w)) = (cur - 1) mod n
  ∧ (cur = 0 → currentTrackIndex (st (prevTrack ok w)) = n - 1).
Proof.
  intros Hne Ha Hc cur n. pose proof (size_of_pos w Hne) as Hpos.
  destruct (next_index_mod cur n Hpos Hc) as [Hneq Hnb].
  destruct (prev_index_mod cur n Hpos Hc) as [Hpeq Hpb].
  assert (Hnext : isShuffle (st w) = false →
            currentTrackIndex (st (nextTrack rnd ok w)) = (cur + 1) mod n).
  { intros Hsh. rewrite nextTrack_plays by done.
    destruct (playTrack_index ok _ w audio Hnb Ha) as (Hi & _).
    unfold cur, n in *. by rewrite Hi. }
  assert (Hprev : currentTrackIndex (st (prevTrack ok w)) = (cur - 1) mod n).
  { rewrite prevTrack_plays by done.
    destruct (playTrack_index ok _ w audio Hpb Ha) as (Hi & _).
    unfold cur, n in *. by rewrite Hi. }
  split; [intros Hsh; split; [by apply Hnext|] | split; [exact Hprev|]].
  - intros Hlast. rewrite (Hnext Hsh), Hlast.
    replace (n - 1 + 1) with n by lia. apply Z_mod_same_full.
  - intros Hzero. rewrite Hprev, Hzero.
    replace (0 - 1) with (n - 1 + (-1) * n) by lia.
    rewrite Z_mod_plus_full. apply Z.mod_small. lia.
Qed.

Lemma next_prev_wraparound_witness :
  currentTrackIndex (st (prevTrack true playingB)) = (1 - 1) mod 3.
Proof.
  refine (proj1 (proj2 (next_prev_wraparound 0%Q true playingB
            (Audio.play true (Audio.set_src 0%nat mounted)) _ _ _))).
  - discriminate.
  - reflexivity.
  - vm_compute. split; [discriminate | reflexivity].
Defined.

(** C10.  On a non-empty playlist of [n] tracks with no active index (the
    sentinel -1), the audio element mounted, [previous] is [playTrack] at
    [(n - 2) mod n]: that track is loaded, becomes the active one, and the
    playing flag is the browser's answer to [play()]; the world changes.
    For [n >= 2] the index is [n - 2].  [next] with shuffle off is
    [playTrack] at index 0. *)
Theorem prev_from_none_plays_second_to_last (rnd : Q) (ok : bool)
    (w : World) audio :
  playlist (st w) ≠ [] →
  audioRef (refs w) = Some audio →
  currentTrackIndex (st w) = -1 →
  let n := size_of w in
  let p := (n - 2) mod n in
  prevTrack ok w = playTrack ok p w
  ∧ prevTrack ok w ≠ w
  ∧ currentTrackIndex (st (prevTrack ok w)) = p
  ∧ isPlaying (st (prevTrack ok w)) = ok
  ∧ (∃ track, playlist (st w) !! Z.to_nat p = Some track
              ∧ loaded track (prevTrack ok w))
  ∧ (2 ≤ n → p = n - 2)
  ∧ (isShuffle (st w) = false →
     nextTrack rnd ok w = playTrack ok 0 w
     ∧ currentTrackIndex (st (nextTrack rnd ok w)) = 0
     ∧ isPlaying (st (nextTrack rnd ok w)) = ok
     ∧ ∃ track, playlist (st w) !! 0%nat = Some track
                ∧ loaded track (nextTrack rnd ok w)).
Proof.
  intros Hne Ha Hcur n p. pose proof (size_of_pos w Hne) as Hpos.
  assert (Hc : -1 ≤ currentTrackIndex (st w) < n) by (rewrite Hcur; lia).
  destruct (prev_index_mod _ n Hpos Hc) as [Heq Hb].
  assert (Hp : Z.rem (currentTrackIndex (st w) - 1 + n) n = p).
  { rewrite Heq, Hcur. unfold p.
    replace (n - 2) with (-1 - 1 + 1 * n) by lia. by rewrite Z_mod_plus_full. }
  rewrite Hp in Hb.
  assert (Hprev : prevTrack ok w = playTrack ok p w).
  { rewrite prevTrack_plays by done. unfold n in Hp. by rewrite Hp. }
  assert (Hnext : isShuffle (st w) = false →
                  nextTrack rnd ok w = playTrack ok 0 w).
  { intros Hsh. rewrite nextTrack_plays, Hcur by done.
    change (-1 + 1) with 0. by rewrite Z.rem_0_l by lia. }
  assert (H0 : 0 ≤ 0 < size_of w) by lia.
  destruct (playTrack_index ok p w audio Hb Ha) as (Hi & Hpl & _).
  destruct (in_range_track p w Hb) as [track Ht].
  rewrite Hprev. repeat split; try done.
  - intros Heqw. rewrite Heqw in Hi. lia.
  - exists track. split; [done|]. by eapply playTrack_loaded.
  - intros Hn. apply Z.mod_small. lia.
  - by apply Hnext.
  - rewrite Hnext by done.
    by destruct (playTrack_index ok 0 w audio H0 Ha) as (? & _).
  - rewrite Hnext by done.
    by destruct (playTrack_index ok 0 w audio H0 Ha) as (_ & ? & _).
  - rewrite Hnext by done. destruct (in_range_track 0 w H0) as [t0 Ht0].
    exists t0. split; [done|]. by eapply playTrack_loaded.
Qed.

Lemma prev_from_none_plays_second_to_last_witness :
  currentTrackIndex (st (prevTrack true threeTracks)) = (3 - 2) mod 3.
Proof.
  refine (proj1 (proj2 (proj2 (prev_from_none_plays_second_to_last 0%Q true
            threeTracks mounted _ _ _)))).
  - discriminate.
  - reflexivity.
  - reflexivity.
Defined.

Lemma splice1_in_range {A} index (l : list A) :
  0 ≤ index < Z.of_nat (length l) → splice1 index l = delete (Z.to_nat index) l.
Proof.
  intros Hr. unfold splice1.
  destruct (Z.ltb_spec index 0); [lia|]. by rewrite Z.min_l by lia.
Qed.

(** [removeTrack] touches neither the object URLs nor the element's source. *)
Lemma removeTrack_env index w : env (removeTrack index w) = env w.
Proof.
  unfold removeTrack.
  by destruct (_ =? _); [|destruct (_ <? _)].
Qed.

Lemma removeTrack_src index w :
  Audio.src <$> audioRef (refs (removeTrack index w))
  = Audio.src <$> audioRef (refs w).
Proof.
  unfold removeTrack.
  destruct (_ =? _); [|by destruct (_ <? _)].
  cbn. by destruct (audioRef (refs w)).
Qed.

Lemma playTrack_position ok index w :
  position_ok w → position_ok (playTrack ok index w).
Proof.
  unfold position_ok, size_of. intros [[audio Ha] Hc].
  destruct (out_of_range index w) eqn:Ho.
  - unfold playTrack, out_of_range in *.
    rewrite initAudioContext_st, Ho, initAudioContext_st.
    by rewrite initAudioContext_audioRef, Ha.
  - assert (Hr : 0 ≤ index < size_of w).
    { unfold out_of_range in Ho. rewrite Z.geb_leb in Ho. unfold size_of.
      apply orb_false_iff in Ho as [H1 H2].
      apply Z.ltb_ge in H1. apply Z.leb_gt in H2. lia. }
    destruct (in_range_track index w Hr) as [track Ht].
    destruct (playTrack_in_range ok index w track audio Hr Ht Ha)
      as (_ & -> & _).
    destruct (playTrack_index ok index w audio Hr Ha) as (-> & _ & ->).
    split; [done | unfold size_of in Hr; lia].
Qed.

(** What the hypotheses of the navigation theorems ask for holds in every
    world reached through the interface. *)
Lemma reachable_ui_position randomUUID w :
  reachable_ui randomUUID w → position_ok w.
Proof.
  induction 1 as [|e w _ IH Hui]; [split; [by eexists | by vm_compute]|].
  destruct e; cbn [handle].
  - unfold handleDrop. destruct (_ <? _)%nat; [|done].
    destruct IH as [Hm Hc]. split; [done|].
    unfold size_of in *. cbn. rewrite length_app. lia.
  - unfold handleFileSelect. destruct (_ <? _)%nat; [|done].
    destruct IH as [Hm Hc]. split; [done|].
    unfold size_of in *. cbn. rewrite length_app. lia.
  - by apply playTrack_position.
  - unfold togglePlay. destruct (audioRef (refs w)) eqn:Ha; [|done].
    destruct (_ && _); [by apply playTrack_position|].
    destruct IH as [Hm Hc]. unfold position_ok, size_of in *.
    destruct (isPlaying (st w)); cbn;
      rewrite ?initAudioContext_st, ?initAudioContext_audioRef, ?Ha; done.
  - unfold nextTrack. destruct (_ =? _); [done | by apply playTrack_position].
  - unfold prevTrack. destruct (_ =? _); [done | by apply playTrack_position].
  - unfold nextTrack. destruct (_ =? _); [done | by apply playTrack_position].
  - cbn in Hui. destruct IH as [[audio Ha] Hc].
    assert (Hlen : Z.of_nat (length (splice1 index (playlist (st w))))
                   = size_of w - 1).
    { rewrite splice1_in_range by done. unfold size_of in *.
      rewrite length_delete by (apply lookup_lt_is_Some; lia). lia. }
    unfold removeTrack, position_ok, size_of in *.
    destruct (Z.eqb_spec index (currentTrackIndex (st w)));
      [|destruct (Z.ltb_spec index (currentTrackIndex (st w)))]; cbn;
      rewrite ?Ha, Hlen; (split; [done | lia]).
  - done.
  - destruct IH as [[audio Ha] Hc]. unfold position_ok. cbn. by rewrite Ha.
  - destruct IH as [[audio Ha] Hc]. unfold position_ok. cbn. by rewrite Ha.
  - destruct IH as [[audio Ha] Hc]. unfold position_ok. cbn. by rewrite Ha.
  - unfold analyzePlaylist. destruct (_ =? _)%nat; [done|].
    destruct (noKey _); [done|]. by destruct outcome.
Qed.

(** C2.  Removing the track at a valid index that is the active index
    splices it out, turns the playing flag off, pauses the element and
    sets the active index to the sentinel -1. *)
Theorem remove_active_stops (index : Z) (w : World) :
  0 ≤ index < size_of w →
  currentTrackIndex (st w) = index →
  let w' := removeTrack index w in
  isPlaying (st w') = false
  ∧ currentTrackIndex (st w') = -1
  ∧ playlist (st w') = delete (Z.to_nat index) (playlist (st w))
  ∧ (∀ a, audioRef (refs w') = Some a → Audio.paused a = true).
Proof.
  intros Hr Hcur. unfold removeTrack. rewrite Hcur, Z.eqb_refl. cbn.
  rewrite splice1_in_range by done. repeat split.
  intros a. destruct (audioRef (refs w)); cbn; [|done].
  by intros [= <-].
Qed.

Lemma remove_active_stops_witness :
  isPlaying (st (removeTrack 1 playingB)) = false
  ∧ currentTrackIndex (st (removeTrack 1 playingB)) = -1.
Proof.
  pose proof (remove_active_stops 1 playingB) as H. cbv zeta in H.
  destruct H as (H1 & H2 & _).
  - vm_compute. split; [discriminate | reflexivity].
  - reflexivity.
  - exact (conj H1 H2).
Defined.

(** C3.  Removing the track at an index strictly below the active index
    splices it out and lowers the active index by exactly one, so that it
    names the same track as before; the playing flag, the audio element
    and the object URLs are untouched. *)
Theorem remove_before_active_shifts (index : Z) (w : World) :
  0 ≤ index < currentTrackIndex (st w) →
  currentTrackIndex (st w) < size_of w →
  let cur := currentTrackIndex (st w) in
  let w' := removeTrack index w in
  currentTrackIndex (st w') = cur - 1
  ∧ playlist (st w') = delete (Z.to_nat index) (playlist (st w))
  ∧ playlist (st w') !! Z.to_nat (cur - 1) = playlist (st w) !! Z.to_nat cur
  ∧ is_Some (playlist (st w') !! Z.to_nat (cur - 1))
  ∧ isPlaying (st w') = isPlaying (st w)
  ∧ refs w' = refs w
  ∧ env w' = env w.
Proof.
  intros Hi Hc cur. unfold removeTrack. fold cur.
  destruct (Z.eqb_spec index cur); [lia|].
  destruct (Z.ltb_spec index cur); [|lia]. cbn.
  rewrite splice1_in_range by (unfold size_of in Hc; lia).
  assert (Hlk : delete (Z.to_nat index) (playlist (st w)) !! Z.to_nat (cur - 1)
                = playlist (st w) !! Z.to_nat cur).
  { rewrite list_lookup_delete_ge by lia. f_equal. lia. }
  repeat split; try done.
  rewrite Hlk. apply lookup_lt_is_Some. unfold size_of in Hc. lia.
Qed.

(** The walk-through of the specification: playlist [A, B, C], active index
    1, [remove(0)] gives [B, C] with active index 0 and playback as it was. *)
Lemma remove_before_active_shifts_witness :
  currentTrackIndex (st (removeTrack 0 playingB)) = 1 - 1
  ∧ Track.name <$> playlist (st (removeTrack 0 playingB)) = ["B"; "C"]
  ∧ isPlaying (st (removeTrack 0 playingB)) = true.
Proof.
  pose proof (remove_before_active_shifts 0 playingB) as H. cbv zeta in H.
  destruct H as (H1 & H2 & _ & _ & H3 & _).
  - vm_compute. split; [discriminate | reflexivity].
  - reflexivity.
  - split; [exact H1 | split; [by rewrite H2 | by rewrite H3]].
Defined.

(** ** The transient URL discipline *)

Lemma urls_ok_size w : urls_ok (urlview w) → (size (outstanding w) ≤ 1)%nat.
Proof.
  unfold urls_ok, urlview, outstanding. intros (_ & Hheld & _).
  destruct (Audio.src <$> audioRef (refs w)) as [[u|]|] eqn:Hs.
  - assert (Hsub : dom (objectURLs (env w)) ⊆ ({[u]} : gset nat)).
    { intros x Hx. specialize (Hheld x Hx). set_solver. }
    apply subseteq_size in Hsub. rewrite size_singleton in Hsub. lia.
  - assert (Hemp : dom (objectURLs (env w)) = (∅ : gset nat)).
    { apply set_eq. intros x. split; [|set_solver].
      intros Hx. by specialize (Hheld x Hx). }
    rewrite Hemp, size_empty. lia.
  - assert (Hemp : dom (objectURLs (env w)) = (∅ : gset nat)).
    { apply set_eq. intros x. split; [|set_solver].
      intros Hx. by specialize (Hheld x Hx). }
    rewrite Hemp, size_empty. lia.
Qed.

(** Once the source of the element is revoked, nothing is outstanding. *)
Lemma revoke_src_empties w audio :
  urls_ok (urlview w) →
  audioRef (refs w) = Some audio →
  match Audio.src audio with
  | Some old => objectURLs (env (revokeObjectURL old w)) = ∅
  | None => objectURLs (env w) = ∅
  end.
Proof.
  unfold urls_ok, urlview. intros (_ & Hheld & _) Ha.
  rewrite Ha in Hheld. cbn in Hheld.
  assert (Hsrc : ∀ i f, objectURLs (env w) !! i = Some f →
                        Audio.src audio = Some i).
  { intros i f Hi. assert (Hs : Some (Audio.src audio) = Some (Some i)).
    { apply Hheld, elem_of_dom. by exists f. }
    by injection Hs. }
  destruct (Audio.src audio) as [old|]; cbn; apply map_empty; intros i.
  - rewrite lookup_delete. case_decide; [done|].
    destruct (objectURLs (env w) !! i) as [f|] eqn:Hi; [|done].
    specialize (Hsrc i f Hi). congruence.
  - destruct (objectURLs (env w) !! i) as [f|] eqn:Hi; [|done].
    by specialize (Hsrc i f Hi).
Qed.

(** Load-and-play on a track of the playlist: the new URL is created in an
    empty store, so it is the only one. *)
Lemma playTrack_replaces ok index w track audio :
  urls_ok (urlview w) →
  0 ≤ index < size_of w →
  playlist (st w) !! Z.to_nat index = Some track →
  audioRef (refs w) = Some audio →
  objectURLs (env (playTrack ok index w))
  = {[ urlCount (env w) := Track.file track ]}
  ∧ urlCount (env w) ∉ outstanding w.
Proof.
  intros Hok Hr Ht Ha. pose proof (revoke_src_empties w audio Hok Ha) as Hemp.
  destruct (playTrack_in_range ok index w track audio Hr Ht Ha)
    as (_ & _ & ->).
  split.
  - rewrite <- insert_empty. f_equal.
    by destruct (Audio.src audio).
  - unfold urls_ok, urlview, outstanding in *.
    destruct Hok as (_ & Hheld & Hlt).
    intros Hin. specialize (Hheld _ Hin). specialize (Hlt _ Hheld). lia.
Qed.

Lemma playTrack_urlview ok index w :
  urlview (playTrack ok index w) = urlview w
  ∨ ∃ track audio,
      0 ≤ index < size_of w
      ∧ playlist (st w) !! Z.to_nat index = Some track
      ∧ audioRef (refs w) = Some audio.
Proof.
  destruct (out_of_range index w) eqn:Ho.
  - left. unfold playTrack, out_of_range in *.
    rewrite initAudioContext_st, Ho. unfold urlview.
    by rewrite initAudioContext_env, initAudioContext_audioRef.
  - assert (Hr : 0 ≤ index < size_of w).
    { unfold out_of_range in Ho. rewrite Z.geb_leb in Ho. unfold size_of.
      apply orb_false_iff in Ho as [H1 H2].
      apply Z.ltb_ge in H1. apply Z.leb_gt in H2. lia. }
    destruct (in_range_track index w Hr) as [track Ht].
    destruct (audioRef (refs w)) as [audio|] eqn:Ha.
    + right. by exists track, audio.
    + left. unfold playTrack, out_of_range in *.
      rewrite initAudioContext_st, Ho, Ht, initAudioContext_audioRef, Ha.
      unfold urlview.
      by rewrite initAudioContext_env, initAudioContext_audioRef.
Qed.

Lemma playTrack_urls_ok ok index w :
  urls_ok (urlview w) → urls_ok (urlview (playTrack ok index w)).
Proof.
  intros Hok.
  destruct (playTrack_urlview ok index w) as [-> | (track & audio & Hr & Ht & Ha)];
    [done|].
  destruct (playTrack_replaces ok index w track audio Hok Hr Ht Ha) as [Hm _].
  destruct (playTrack_in_range ok index w track audio Hr Ht Ha)
    as (_ & Haud & Hurls).
  assert (Hc : urlCount (env (playTrack ok index w)) = S (urlCount (env w))).
  { unfold playTrack.
    rewrite (out_of_range_false index (initAudioContext w))
      by (unfold size_of; by rewrite initAudioContext_st).
    rewrite initAudioContext_st, Ht, initAudioContext_audioRef, Ha.
    destruct (Audio.src audio); cbn; by rewrite initAudioContext_env. }
  unfold urls_ok, urlview. rewrite Hm, Haud, Hc. cbn.
  split; [done|]. split.
  - intros u Hu. rewrite dom_singleton_L in Hu. set_solver.
  - intros u [= <-]. lia.
Qed.

(** The handler at hand leaves the URL view of [w] as it is. *)
Ltac same_urlview w :=
  match goal with
  | |- urls_ok (urlview ?x) =>
      replace (urlview x) with (urlview w); [assumption | unfold urlview]
  end.

Lemma handle_urls_ok randomUUID e w :
  urls_ok (urlview w) → urls_ok (urlview (handle randomUUID e w)).
Proof.
  intros Hok. destruct e; cbn [handle].
  - unfold handleDrop. by destruct (_ <? _)%nat.
  - unfold handleFileSelect. by destruct (_ <? _)%nat.
  - by apply playTrack_urls_ok.
  - unfold togglePlay. destruct (audioRef (refs w)) eqn:Ha; [|done].
    destruct (_ && _); [by apply playTrack_urls_ok|].
    same_urlview w. destruct (isPlaying (st w)); cbn;
      rewrite ?initAudioContext_env, ?initAudioContext_audioRef, ?Ha; done.
  - unfold nextTrack. destruct (_ =? _); [done | by apply playTrack_urls_ok].
  - unfold prevTrack. destruct (_ =? _); [done | by apply playTrack_urls_ok].
  - unfold nextTrack. destruct (_ =? _); [done | by apply playTrack_urls_ok].
  - same_urlview w. by rewrite removeTrack_env, removeTrack_src.
  - done.
  - same_urlview w. cbn. by destruct (audioRef (refs w)).
  - same_urlview w. cbn. by destruct (audioRef (refs w)).
  - same_urlview w. cbn. by destruct (audioRef (refs w)).
  - unfold analyzePlaylist. destruct (_ =? _)%nat; [done|].
    destruct (noKey _); [done|]. by destruct outcome.
Qed.

Lemma reachable_urls_ok randomUUID w :
  reachable randomUUID w → urls_ok (urlview w).
Proof.
  induction 1 as [|e w _ IH]; [|by apply handle_urls_ok].
  unfold urls_ok, urlview. cbn. split; [done|]. split; [|done].
  intros u Hu. rewrite dom_empty_L in Hu. set_solver.
Qed.

Lemma reachable_run randomUUID es :
  reachable randomUUID (run randomUUID es init).
Proof.
  unfold run. induction es as [|e es IH] using rev_ind.
  - constructor.
  - rewrite foldl_app. cbn. by constructor.
Qed.

(** C5, as the code has it.  In every world the component can reach, at
    most one transient URL is outstanding.  Load-and-play first revokes the
    source of the audio element, which leaves the store empty, and then
    creates the new URL: on a track of the playlist it hands out a URL that
    was not outstanding and leaves it the only one in the store.  Removing
    a track revokes nothing: the store and the source of the audio element
    are as before. *)
Theorem one_url_release_before_replace randomUUID (w : World) :
  reachable randomUUID w →
  (size (outstanding w) ≤ 1)%nat
  ∧ (∀ audio, audioRef (refs w) = Some audio →
       match Audio.src audio with
       | Some old => objectURLs (env (revokeObjectURL old w)) = ∅
       | None => objectURLs (env w) = ∅
       end)
  ∧ (∀ ok index, 0 ≤ index < size_of w →
       ∃ track, playlist (st w) !! Z.to_nat index = Some track
                ∧ objectURLs (env (playTrack ok index w))
                  = {[ urlCount (env w) := Track.file track ]}
                ∧ urlCount (env w) ∉ outstanding w)
  ∧ (∀ index,
       objectURLs (env (removeTrack index w)) = objectURLs (env w)
       ∧ Audio.src <$> audioRef (refs (removeTrack index w))
         = Audio.src <$> audioRef (refs w)).
Proof.
  intros Hreach. pose proof (reachable_urls_ok _ _ Hreach) as Hok.
  split; [by apply urls_ok_size|].
  split; [intros audio Ha; by apply revoke_src_empties|]. split.
  - intros ok index Hr. destruct (in_range_track index w Hr) as [track Ht].
    exists track. split; [done|].
    destruct Hok as ([s Hs] & Hrest). unfold urlview in Hs.
    destruct (audioRef (refs w)) as [audio|] eqn:Ha; [|done].
    eapply playTrack_replaces; try done.
    unfold urls_ok, urlview. rewrite Ha. split; [done | exact Hrest].
  - intros index. by rewrite removeTrack_env, removeTrack_src.
Qed.

Lemma one_url_release_before_replace_witness :
  (size (outstanding playingB) ≤ 1)%nat.
Proof.
  refine (proj1 (one_url_release_before_replace sampleUUID playingB _)).
  apply (reachable_run sampleUUID
           [Drop [fileA; cover; fileB; fileC]; ClickTrack 1 true]).
Defined.

(** C5, as stated, fails: [B] is playing from URL 0; once [B] is removed
    from the playlist, URL 0 is still outstanding for the blob of [B] and
    is still the source of the audio element. *)
Lemma removed_track_url_stays_outstanding :
  let w := removeTrack 1 playingB in
  Track.name <$> playlist (st w) = ["A"; "C"]
  ∧ objectURLs (env w) !! 0%nat = Some fileB
  ∧ Audio.src <$> audioRef (refs w) = Some (Some 0%nat)
  ∧ outstanding w ≠ ∅.
Proof.
  cbv zeta. split; [reflexivity|]. split; [reflexivity|].
  split; [reflexivity|]. intros H.
  assert (Hin : 0%nat ∈ outstanding (removeTrack 1 playingB)).
  { apply elem_of_dom. by exists fileB. }
  rewrite H in Hin. set_solver.
Qed.

(** ** The position invariant *)




(** C6, at the input where the code breaks it.  On the first render (empty
    playlist, active index -1, playing flag off) the position invariant
    holds; the play button runs [togglePlay], whose guard for the sentinel
    asks for a non-empty playlist, so the handler falls through to the
    toggle: the active index is still -1 and the playing flag is on. *)
Theorem togglePlay_on_empty_playlist_sets_playing (ok : bool) :
  idle_when_none init
  ∧ playlist (st (togglePlay ok init)) = []
  ∧ currentTrackIndex (st (togglePlay ok init)) = -1
  ∧ isPlaying (st (togglePlay ok init)) = true
  ∧ ¬ idle_when_none (togglePlay ok init).
Proof.
  split; [done|]. split; [done|]. split; [done|]. split; [done|].
  intros H. by specialize (H eq_refl).
Qed.

(** The same fall-through once the only track has been removed while it
    played: the flag goes on, no index is active, and the element plays
    the URL of the track that is gone. *)
Lemma togglePlay_after_removing_only_track :
  let w := run sampleUUID
             [Drop [fileA]; ClickTrack 0 true; ClickRemove 0; ClickPlay true]
             init in
  playlist (st w) = []
  ∧ currentTrackIndex (st w) = -1
  ∧ isPlaying (st w) = true
  ∧ (Audio.paused <$> audioRef (refs w)) = Some false
  ∧ objectURLs (env w) !! 0%nat = Some fileA.
Proof. cbv zeta. repeat split. Qed.

(** ** AI mood summary *)

(** C7.  With an empty playlist [analyzePlaylist] returns at once: the
    world is unchanged, so no request is sent and the summary text is what
    it was. *)
Theorem analyze_empty_playlist_is_noop (API_KEY : option string)
    (outcome : Outcome) (w : World) :
  playlist (st w) = [] →
  analyzePlaylist API_KEY outcome w = w
  ∧ requests (env (analyzePlaylist API_KEY outcome w)) = requests (env w)
  ∧ aiAnalysis (st (analyzePlaylist API_KEY outcome w)) = aiAnalysis (st w).
Proof.
  intros Hempty. unfold analyzePlaylist. by rewrite Hempty.
Qed.

Lemma analyze_empty_playlist_is_noop_witness :
  analyzePlaylist (Some "key") (Resolved "calm") init = init
  ∧ requests (env (analyzePlaylist (Some "key") (Resolved "calm") init)) = []
  ∧ aiAnalysis (st (analyzePlaylist (Some "key") (Resolved "calm") init))
    = EmptyString.
Proof.
  apply (analyze_empty_playlist_is_noop (Some "key") (Resolved "calm") init).
  reflexivity.
Defined.

(** C8, as the code has it.  On a non-empty playlist: with no credential
    (unset or empty) no request is sent and the summary becomes the fixed
    text [keyMissing]; with a credential exactly one request is sent, and
    if it fails the summary becomes the fixed text [connectionError], a
    different one.  Either way the analysing flag ends off and nothing else
    of the world changes. *)
Theorem analyze_fallback_messages (API_KEY : option string) (w : World) :
  playlist (st w) ≠ [] →
  (noKey API_KEY = true →
   ∀ outcome,
     let w' := analyzePlaylist API_KEY outcome w in
     aiAnalysis (st w') = keyMissing
     ∧ isAnalyzing (st w') = false
     ∧ requests (env w') = requests (env w))
  ∧ (noKey API_KEY = false →
     let w' := analyzePlaylist API_KEY Rejected w in
     aiAnalysis (st w') = connectionError
     ∧ isAnalyzing (st w') = false
     ∧ requests (env w')
       = (requests (env w)
          ++ [ {| model := "gemini-2.5-flash";
                  contents := prompt (trackNames (playlist (st w))) |} ])%list)
  ∧ keyMissing ≠ connectionError
  ∧ (∀ outcome,
       let w' := analyzePlaylist API_KEY outcome w in
       playlist (st w') = playlist (st w)
       ∧ currentTrackIndex (st w') = currentTrackIndex (st w)
       ∧ isPlaying (st w') = isPlaying (st w)
       ∧ refs w' = refs w
       ∧ objectURLs (env w') = objectURLs (env w)).
Proof.
  intros Hne.
  assert (Hlen : (length (playlist (st w)) =? 0)%nat = false).
  { destruct (playlist (st w)); [done | reflexivity]. }
  repeat split; try done; intros;
    unfold analyzePlaylist; rewrite Hlen; cbn;
    try match goal with H : noKey _ = _ |- _ => rewrite H end;
    try done; destruct (noKey API_KEY); try done; by destruct outcome.
Qed.

Lemma analyze_fallback_messages_witness :
  aiAnalysis (st (analyzePlaylist (Some "key") Rejected threeTracks))
  = connectionError
  ∧ isAnalyzing (st (analyzePlaylist (Some "key") Rejected threeTracks))
    = false
  ∧ length (requests (env (analyzePlaylist (Some "key") Rejected threeTracks)))
    = 1%nat.
Proof.
  pose proof (analyze_fallback_messages (Some "key") threeTracks) as H.
  destruct H as (_ & H & _).
  - discriminate.
  - destruct (H eq_refl) as (H1 & H2 & H3).
    split; [exact H1 | split; [exact H2 | by rewrite H3]].
Defined.

(** C8, as stated, fails: on the playlist [A, B, C] the text shown without
    a credential is not the text shown when the call fails. *)
Lemma fallback_messages_differ :
  aiAnalysis (st (analyzePlaylist None Rejected threeTracks))
  = "API Key Missing. Cannot analyze."
  ∧ aiAnalysis (st (analyzePlaylist (Some "key") Rejected threeTracks))
    = connectionError
  ∧ aiAnalysis (st (analyzePlaylist None Rejected threeTracks))
    ≠ aiAnalysis (st (analyzePlaylist (Some "key") Rejected threeTracks)).
Proof. split; [reflexivity|]. split; [reflexivity | discriminate]. Qed.

(** ** Playlist ingestion *)

Lemma append_cons c s t : String c s ++ t = String c (s ++ t).
Proof. reflexivity. Qed.

Lemma append_nil_l t : EmptyString ++ t = t.
Proof. reflexivity. Qed.

Lemma extTail_has_no_dot s t :
  forallb extChar (list_ascii_of_string (s ++ String "." t)) = false.
Proof.
  induction s as [|c s IH]; [done|].
  rewrite append_cons. cbn. rewrite IH. apply andb_false_r.
Qed.

(** A name [stem.ext], the extension not empty and free of dots and
    slashes, is cut down to [stem]. *)
Lemma stripExtension_cuts stem ext :
  extTail ext = true → stripExtension (stem ++ String "." ext) = stem.
Proof.
  intros Hext. induction stem as [|c stem IH].
  - rewrite append_nil_l. cbn. by rewrite Hext.
  - rewrite append_cons. cbn. unfold extTail at 1.
    rewrite extTail_has_no_dot, andb_false_r, andb_false_r.
    by rewrite IH.
Qed.

(** A name that is not of that form is kept whole. *)
Lemma stripExtension_keeps s :
  (∀ stem ext, s = stem ++ String "." ext → extTail ext = false) →
  stripExtension s = s.
Proof.
  induction s as [|c s IH]; intros Hno; cbn; [done|].
  destruct (Ascii.eqb_spec c ".") as [->|Hc]; cbn.
  - rewrite (Hno EmptyString s eq_refl). f_equal. apply IH.
    intros stem ext ->. by apply (Hno (String "." stem) ext).
  - f_equal. apply IH. intros stem ext ->. by apply (Hno (String c stem) ext).
Qed.

Example stripExtension_samples :
  stripExtension <$> ["song.mp3"; "a.b.flac"; "noext"; "song."; ".ogg"; "v1.0/x"]
  = ["song"; "a.b"; "noext"; "song."; EmptyString; "v1.0/x"].
Proof. reflexivity. Qed.

Section IngestionFacts.

Variable randomUUID : nat → string.

Lemma newTracks_cons k f fs :
  newTracks randomUUID k (f :: fs)
  = {| Track.file := f; Track.id := randomUUID k;
       Track.name := stripExtension (f_name f) |}
    :: newTracks randomUUID (S k) fs.
Proof.
  unfold newTracks. rewrite imap_cons. f_equal.
  - by rewrite Nat.add_0_r.
  - apply imap_ext. intros i x _. cbn. by rewrite Nat.add_succ_r.
Qed.

Lemma newTracks_files k fs : Track.file <$> newTracks randomUUID k fs = fs.
Proof.
  revert k. induction fs as [|f fs IH]; intros k; [done|].
  rewrite newTracks_cons. cbn. by rewrite IH.
Qed.

Lemma newTracks_ids k fs :
  Track.id <$> newTracks randomUUID k fs = randomUUID <$> seq k (length fs).
Proof.
  revert k. induction fs as [|f fs IH]; intros k; [done|].
  rewrite newTracks_cons. cbn. by rewrite IH.
Qed.

Lemma newTracks_lookup k fs i t :
  newTracks randomUUID k fs !! i = Some t →
  fs !! i = Some (Track.file t)
  ∧ Track.id t = randomUUID (k + i)%nat
  ∧ Track.name t = stripExtension (f_name (Track.file t)).
Proof.
  unfold newTracks. rewrite list_lookup_imap.
  destruct (fs !! i) as [f|]; [|done]. cbn. by intros [= <-].
Qed.

Lemma newTracks_length k fs : length (newTracks randomUUID k fs) = length fs.
Proof. unfold newTracks. apply length_imap. Qed.

(** The two entry points are the same function of the batch. *)
Lemma handleFileSelect_handleDrop files w :
  handleFileSelect randomUUID files w = handleDrop randomUUID files w.
Proof. reflexivity. Qed.

Lemma handleDrop_playlist files w :
  playlist (st (handleDrop randomUUID files w))
  = (playlist (st w)
     ++ newTracks randomUUID (uuidCount (env w)) (List.filter isAudio files))%list.
Proof.
  unfold handleDrop. destruct files as [|f files]; [|done].
  cbn. by rewrite app_nil_r.
Qed.

Lemma handleDrop_uuidCount files w :
  uuidCount (env (handleDrop randomUUID files w))
  = (uuidCount (env w) + length (List.filter isAudio files))%nat.
Proof.
  unfold handleDrop. destruct files as [|f files]; [|done].
  cbn. by rewrite Nat.add_0_r.
Qed.

End IngestionFacts.

(** C4.  A batch ingested by drag-and-drop or by the file picker (the two
    are the same function) appends to the end of the playlist one track
    per file whose type starts with [audio/], in the order of the batch and
    with repetitions kept; files of other types leave no trace.  The track
    of a file carries the file, the name cut by [stripExtension] (a name
    [stem.ext] becomes [stem]) and the next value of [crypto.randomUUID],
    one draw per track.  When [randomUUID] never repeats a value and the
    playlist's identifiers were drawn from it, all identifiers of the new
    playlist are pairwise distinct.  Nothing else of the world changes. *)
Theorem ingest_appends_audio_files (randomUUID : nat → string)
    (files : list File) (w : World) :
  let w' := handleDrop randomUUID files w in
  let audio := List.filter isAudio files in
  let new := newTracks randomUUID (uuidCount (env w)) audio in
  handleFileSelect randomUUID files w = w'
  ∧ playlist (st w') = (playlist (st w) ++ new)%list
  ∧ Track.file <$> new = audio
  ∧ (∀ f, f ∈ Track.file <$> new
          ↔ f ∈ files ∧ String.prefix "audio/" (f_type f) = true)
  ∧ length (playlist (st w'))
    = (length (playlist (st w)) + length audio)%nat
  ∧ (∀ i t, new !! i = Some t →
       audio !! i = Some (Track.file t)
       ∧ Track.id t = randomUUID (uuidCount (env w) + i)%nat
       ∧ Track.name t = stripExtension (f_name (Track.file t))
       ∧ (∀ stem ext, f_name (Track.file t) = stem ++ String "." ext →
            extTail ext = true → Track.name t = stem))
  ∧ uuidCount (env w') = (uuidCount (env w) + length new)%nat
  ∧ (Inj (=) (=) randomUUID → ids_drawn randomUUID w →
     NoDup (Track.id <$> playlist (st w)) →
     NoDup (Track.id <$> playlist (st w')) ∧ ids_drawn randomUUID w')
  ∧ currentTrackIndex (st w') = currentTrackIndex (st w)
  ∧ isPlaying (st w') = isPlaying (st w)
  ∧ refs w' = refs w
  ∧ objectURLs (env w') = objectURLs (env w).
Proof.
  intros w' audio new.
  assert (Hpl : playlist (st w') = (playlist (st w) ++ new)%list)
    by apply handleDrop_playlist.
  assert (Hcount : uuidCount (env w')
                   = (uuidCount (env w) + length new)%nat).
  { unfold w', new. by rewrite handleDrop_uuidCount, newTracks_length. }
  assert (Hlookup : ∀ i t, new !! i = Some t →
            audio !! i = Some (Track.file t)
            ∧ Track.id t = randomUUID (uuidCount (env w) + i)%nat
            ∧ Track.name t = stripExtension (f_name (Track.file t))).
  { intros i t. apply newTracks_lookup. }
  split; [done|]. split; [done|]. split; [apply newTracks_files|].
  split.
  { intros f. unfold new. rewrite newTracks_files. unfold audio.
    rewrite !list_elem_of_In, filter_In. done. }
  split.
  { rewrite Hpl, length_app. unfold new. by rewrite newTracks_length. }
  split.
  { intros i t Hi. destruct (Hlookup i t Hi) as (H1 & H2 & H3).
    repeat split; try done.
    intros stem ext Hname Hext. rewrite H3, Hname.
    by apply stripExtension_cuts. }
  split; [done|]. split.
  { intros Hinj Hdrawn Hnodup. split.
    - rewrite Hpl, fmap_app. unfold new. rewrite newTracks_ids.
      apply NoDup_app. split; [done|]. split.
      + intros x Hold Hnew.
        apply list_elem_of_fmap in Hold as (t & -> & Ht).
        destruct (Hdrawn t Ht) as (k & Hk & Hid).
        apply list_elem_of_fmap in Hnew as (j & Hj & Hseq).
        apply elem_of_seq in Hseq. rewrite Hid in Hj.
        apply Hinj in Hj. lia.
      + apply NoDup_fmap_2; [done | apply NoDup_seq].
    - intros t. rewrite Hpl, elem_of_app. intros [Hold | Hnew].
      + destruct (Hdrawn t Hold) as (k & Hk & Hid).
        exists k. split; [lia | done].
      + apply list_elem_of_lookup in Hnew as [i Hi].
        destruct (Hlookup i t Hi) as (_ & Hid & _).
        exists (uuidCount (env w) + i)%nat. split; [|done].
        apply lookup_lt_Some in Hi. lia. }
  unfold w', handleDrop. by destruct (0 <? length files)%nat.
Qed.

Lemma ingest_appends_audio_files_witness :
  NoDup (Track.id <$>
           playlist (st (handleDrop sampleUUID [fileA; cover] threeTracks)))
  ∧ ids_drawn sampleUUID (handleDrop sampleUUID [fileA; cover] threeTracks).
Proof.
  pose proof (ingest_appends_audio_files sampleUUID [fileA; cover] threeTracks)
    as H.
  cbv zeta in H. destruct H as (_ & _ & _ & _ & _ & _ & _ & H & _).
  apply H.
  - unfold sampleUUID. apply _.
  - unfold ids_drawn. apply Forall_forall.
    constructor; [exists 0%nat; split; [vm_compute; lia | reflexivity]|].
    constructor; [exists 1%nat; split; [vm_compute; lia | reflexivity]|].
    constructor; [exists 2%nat; split; [vm_compute; lia | reflexivity]|].
    constructor.
  - apply (bool_decide_unpack _). by vm_compute.
Defined.

(** The mixed batch of the examples: [cover.png] is dropped, [A], [B] and
    [C] arrive in order, named without [.mp3], with distinct identifiers. *)
Example ingest_mixed_batch :
  Track.name <$> playlist (st threeTracks) = ["A"; "B"; "C"]
  ∧ Track.file <$> playlist (st threeTracks) = [fileA; fileB; fileC]
  ∧ Track.id <$> playlist (st threeTracks) = ["0"; "1"; "2"].
Proof. repeat split. Qed.

(** No deduplication: the same file twice gives two tracks. *)
Example ingest_keeps_duplicates :
  Track.name <$> playlist (st (handleDrop sampleUUID [fileA; fileA] threeTracks))
  = ["A"; "B"; "C"; "A"; "A"].
Proof. reflexivity. Qed.

(** ** Visualizer *)

Section VisualizerFacts.

Local Open Scope nat_scope.

Lemma bins_seq N i :
  Visualizer.bins N i = seq (i * Visualizer.step N) (Visualizer.step N).
Proof. unfold Visualizer.bins. by rewrite fmap_add_seq, Nat.add_0_r. Qed.

Lemma bins_range N i b :
  b ∈ Visualizer.bins N i
  ↔ i * Visualizer.step N ≤ b < i * Visualizer.step N + Visualizer.step N.
Proof. rewrite bins_seq. apply elem_of_seq. Qed.

Lemma bins_cover N b :
  (∃ i, i < Visualizer.bars ∧ b ∈ Visualizer.bins N i)
  ↔ b < Visualizer.bars * Visualizer.step N.
Proof.
  split.
  - intros (i & Hi & Hb). apply bins_range in Hb. nia.
  - intros Hb. set (s := Visualizer.step N) in *.
    assert (Hs : s ≠ 0) by (intros Hs; rewrite Hs in Hb; lia).
    exists (b / s). split.
    + apply Nat.Div0.div_lt_upper_bound. lia.
    + apply bins_range. fold s.
      pose proof (Nat.div_mod b s Hs). pose proof (Nat.mod_upper_bound b s Hs).
      nia.
Qed.

Lemma bins_within N : Visualizer.bars * Visualizer.step N ≤ N
  ∧ N - Visualizer.bars * Visualizer.step N = N mod Visualizer.bars.
Proof.
  unfold Visualizer.step.
  pose proof (Nat.div_mod N Visualizer.bars ltac:(done)). 
  pose proof (Nat.mod_upper_bound N Visualizer.bars ltac:(done)). lia.
Qed.

Lemma bins_disjoint N i i' b :
  b ∈ Visualizer.bins N i → b ∈ Visualizer.bins N i' → i = i'.
Proof. rewrite !bins_range. nia. Qed.

Lemma foldl_accumulate data from n acc :
  from + n ≤ length data →
  foldl (Visualizer.accumulate data) (Some acc) (seq from n)
  = Some (acc + Visualizer.total (take n (drop from data)))%Z.
Proof.
  revert from acc. induction n as [|n IH]; intros from acc Hle.
  - rewrite take_0. cbn. f_equal. unfold Visualizer.total. cbn. lia.
  - destruct (lookup_lt_is_Some_2 data from ltac:(lia)) as [x Hx].
    cbn [seq foldl]. unfold Visualizer.accumulate at 2. rewrite Hx.
    rewrite IH by lia. rewrite (drop_S _ _ _ Hx). cbn.
    f_equal. unfold Visualizer.total. cbn. lia.
Qed.

Lemma chunkSum_total data i :
  i < Visualizer.bars →
  Visualizer.chunkSum data i
  = Some (Visualizer.total
            (take (Visualizer.step (length data))
                  (drop (i * Visualizer.step (length data)) data))).
Proof.
  intros Hi. unfold Visualizer.chunkSum. rewrite bins_seq.
  rewrite foldl_accumulate; [done|].
  pose proof (bins_within (length data)) as [H _]. nia.
Qed.

Lemma value_mean data i :
  i < Visualizer.bars → 0 < Visualizer.step (length data) →
  Visualizer.value data i
  = Visualizer.Num
      (Visualizer.mean data (i * Visualizer.step (length data))
         (Visualizer.step (length data))).
Proof.
  intros Hi Hs. unfold Visualizer.value. rewrite chunkSum_total by done.
  destruct (Nat.eqb_spec (Visualizer.step (length data)) 0); [lia | done].
Qed.

Lemma value_NaN data i :
  Visualizer.step (length data) = 0 → Visualizer.value data i = Visualizer.NaN.
Proof.
  intros Hs. unfold Visualizer.value, Visualizer.chunkSum, Visualizer.bins.
  rewrite Hs. done.
Qed.

Lemma initAudioContext_analyser w :
  analyser_ok w → analyser_ok (initAudioContext w).
Proof.
  unfold analyser_ok, initAudioContext. intros Hw a.
  destruct (audioContextRef (refs w)) as [[]|]; cbn; [by apply Hw.. |].
  by intros [= <-].
Qed.

Lemma playTrack_analyser ok index w :
  analyser_ok w → analyser_ok (playTrack ok index w).
Proof.
  intros Hw. apply initAudioContext_analyser in Hw.
  unfold playTrack. destruct (out_of_range _ _); [done|].
  destruct (playlist _ !! _); [|done].
  destruct (audioRef _) as [audio|]; [|done].
  by destruct (Audio.src audio).
Qed.

Lemma handle_analyser randomUUID e w :
  analyser_ok w → analyser_ok (handle randomUUID e w).
Proof.
  intros Hw. destruct e; cbn [handle].
  - unfold handleDrop. by destruct (_ <? _)%nat.
  - unfold handleFileSelect. by destruct (_ <? _)%nat.
  - by apply playTrack_analyser.
  - unfold togglePlay. destruct (audioRef (refs w)); [|done].
    destruct (_ && _); [by apply playTrack_analyser|].
    destruct (isPlaying (st w)); [done|].
    by apply initAudioContext_analyser in Hw.
  - unfold nextTrack. destruct (_ =? _)%Z; [done | by apply playTrack_analyser].
  - unfold prevTrack. destruct (_ =? _)%Z; [done | by apply playTrack_analyser].
  - unfold nextTrack. destruct (_ =? _)%Z; [done | by apply playTrack_analyser].
  - unfold removeTrack. destruct (_ =? _)%Z; [done|]. by destruct (_ <? _)%Z.
  - done.
  - done.
  - done.
  - done.
  - unfold analyzePlaylist. destruct (_ =? _)%nat; [done|].
    destruct (noKey _); [done|]. by destruct outcome.
Qed.

Lemma reachable_analyser randomUUID w a :
  reachable randomUUID w → analyserRef (refs w) = Some a →
  frequencyBinCount a = 128.
Proof.
  intros Hr Ha. assert (Hok : analyser_ok w).
  { clear a Ha. induction Hr; [done | by apply handle_analyser]. }
  unfold frequencyBinCount. by rewrite (Hok a Ha).
Qed.


(** C9, as the code has it.  A frame drawn while playing paints 120 bars
    from the snapshot of [n] bins.  With [s = floor(n / 120)], bar [i]
    reads the [s] consecutive bins from [i * s]; the chunks of different
    bars are disjoint and together they are the first [120 * s] bins, so
    the highest [n mod 120] bins belong to no bar.  For [s > 0] the value
    of a bar is the arithmetic mean of its chunk (for [s = 0] it is NaN);
    the bar's length is [value / 255 * 100], its hue [i / 120 * 360], its
    saturation [80 + value / 255 * 20] and its lightness
    [50 + value / 255 * 10].  With the analyser the component builds the
    snapshot has 128 bins: each bar is a single bin and bins 120 to 127
    are never read. *)
Theorem bars_average_leading_chunks (dataArray : list Byte.byte) :
  let n := length dataArray in
  let s := Visualizer.step n in
  Visualizer.rescheduled (Visualizer.draw true dataArray) = true
  ∧ length (Visualizer.strokes (Visualizer.draw true dataArray)) = 120
  ∧ (∀ b, (∃ i, i < 120 ∧ b ∈ Visualizer.bins n i) ↔ b < 120 * s)
  ∧ 120 * s ≤ n
  ∧ n - 120 * s = n mod 120
  ∧ (∀ i i' b, b ∈ Visualizer.bins n i → b ∈ Visualizer.bins n i' → i = i')
  ∧ (∀ i, i < 120 →
       Visualizer.strokes (Visualizer.draw true dataArray) !! i
       = Some (Visualizer.bar dataArray i)
       ∧ Visualizer.bins n i = seq (i * s) s
       ∧ (0 < s → Visualizer.value dataArray i
                  = Visualizer.Num (Visualizer.mean dataArray (i * s) s))
       ∧ (s = 0 → Visualizer.value dataArray i = Visualizer.NaN)
       ∧ Visualizer.barValue (Visualizer.bar dataArray i)
         = Visualizer.value dataArray i
       ∧ Visualizer.barHeight (Visualizer.bar dataArray i)
         = Visualizer.jsmap (λ q, q / 255 * 100)%Q
             (Visualizer.value dataArray i)
       ∧ Visualizer.hue (Visualizer.bar dataArray i)
         = (inject_Z (Z.of_nat i) / inject_Z 120 * 360)%Q
       ∧ Visualizer.saturation (Visualizer.bar dataArray i)
         = Visualizer.jsmap (λ q, 80 + q / 255 * 20)%Q
             (Visualizer.value dataArray i)
       ∧ Visualizer.lightness (Visualizer.bar dataArray i)
         = Visualizer.jsmap (λ q, 50 + q / 255 * 10)%Q
             (Visualizer.value dataArray i))
  ∧ (∀ randomUUID w a,
       reachable randomUUID w → analyserRef (refs w) = Some a →
       n = frequencyBinCount a →
       n = 128 ∧ s = 1
       ∧ (∀ i, i < 120 →
            Visualizer.value dataArray i
            = Visualizer.Num (Visualizer.mean dataArray i 1))
       ∧ (∀ b i, 120 ≤ b < 128 → i < 120 → b ∉ Visualizer.bins n i)).
Proof.
  intros n s.
  split; [done|]. split.
  { unfold Visualizer.draw. cbn [Visualizer.strokes].
    by rewrite length_fmap, length_seq. }
  split; [apply bins_cover|].
  split; [apply bins_within|]. split; [apply bins_within|].
  split; [apply bins_disjoint|]. split.
  - intros i Hi. split.
    { unfold Visualizer.draw. cbn [Visualizer.strokes].
      by rewrite list_lookup_fmap, lookup_seq_lt by done. }
    split; [apply bins_seq|]. split; [by apply value_mean|].
    split; [apply value_NaN|]. done.
  - intros randomUUID w a Hr Ha Hn.
    rewrite (reachable_analyser _ _ _ Hr Ha) in Hn.
    assert (Hs : s = 1) by (unfold s; by rewrite Hn).
    split; [done|]. split; [done|]. split.
    + intros i Hi. rewrite value_mean by (fold n s; done || lia).
      fold n s. by rewrite Hs, Nat.mul_1_r.
    + intros b i Hb Hi Hin. apply bins_range in Hin. fold s in Hin. lia.
Qed.

Lemma bars_average_leading_chunks_witness :
  length silence = 128
  ∧ Visualizer.step (length silence) = 1
  ∧ Visualizer.value silence 5
    = Visualizer.Num (Visualizer.mean silence 5 1).
Proof.
  pose proof (bars_average_leading_chunks silence) as H. cbv zeta in H.
  destruct H as (_ & _ & _ & _ & _ & _ & _ & H).
  destruct (H sampleUUID (handle sampleUUID (ClickPlay true) init)
              {| fftSize := 256 |}) as (H1 & H2 & H3 & _).
  - apply reachable_step, reachable_init.
  - reflexivity.
  - reflexivity.
  - split; [exact H1 | split; [exact H2 | apply H3; lia]].
Defined.

(** C9, as stated, fails: at the snapshot size of the component's analyser
    (128 bins, one bin per bar) bins 120 to 127 are in no bar's chunk, and
    a snapshot with full magnitude there is drawn exactly as silence is. *)
Lemma highest_bins_never_drawn :
  frequencyBinCount {| fftSize := 256 |} = 128
  ∧ Visualizer.step 128 = 1
  ∧ ¬ (∀ b, b < 128 → ∃ i, i < 120 ∧ b ∈ Visualizer.bins 128 i)
  ∧ silence ≠ topBinsFull
  ∧ Visualizer.draw true topBinsFull = Visualizer.draw true silence.
Proof.
  split; [reflexivity|]. split; [reflexivity|]. split.
  - intros H. destruct (H 127 ltac:(lia)) as (i & Hi & Hin).
    apply bins_range in Hin. change (Visualizer.step 128) with 1 in Hin. lia.
  - split; [discriminate | by vm_compute].
Qed.

End VisualizerFacts.

(** ** More on the playback controller *)

Lemma in_range_of_out_of_range index w :
  out_of_range index w = false → 0 ≤ index < size_of w.
Proof.
  unfold out_of_range, size_of. rewrite Z.geb_leb. intros Ho.
  apply orb_false_iff in Ho as [H1 H2].
  apply Z.ltb_ge in H1. apply Z.leb_gt in H2. lia.
Qed.

Lemma out_of_range_true index w :
  index < 0 ∨ size_of w ≤ index → out_of_range index w = true.
Proof.
  unfold out_of_range, size_of. rewrite Z.geb_leb. intros [H | H].
  - apply orb_true_iff. left. apply Z.ltb_lt. lia.
  - apply orb_true_iff. right. apply Z.leb_le. lia.
Qed.

(** X1.  [playTrack] on an index outside the playlist: the audio context is
    built or resumed all the same, and nothing else happens: the state,
    the audio element and the browser are as before. *)
Theorem playTrack_out_of_range (ok : bool) (index : Z) (w : World) :
  index < 0 ∨ size_of w ≤ index →
  playTrack ok index w = initAudioContext w
  ∧ st (playTrack ok index w) = st w
  ∧ audioRef (refs (playTrack ok index w)) = audioRef (refs w)
  ∧ env (playTrack ok index w) = env w
  ∧ is_Some (audioContextRef (refs (playTrack ok index w))).
Proof.
  intros Hout. apply out_of_range_true in Hout.
  assert (Heq : playTrack ok index w = initAudioContext w).
  { unfold playTrack, out_of_range in *. by rewrite initAudioContext_st, Hout. }
  rewrite Heq, initAudioContext_st, initAudioContext_audioRef,
    initAudioContext_env.
  repeat split. unfold initAudioContext.
  by destruct (audioContextRef (refs w)) as [[]|] eqn:Hc; cbn; rewrite ?Hc.
Qed.

Lemma playTrack_out_of_range_witness :
  st (playTrack true 3 threeTracks) = st threeTracks
  ∧ env (playTrack true 3 threeTracks) = env threeTracks.
Proof.
  pose proof (playTrack_out_of_range true 3 threeTracks) as H.
  destruct H as (_ & H1 & _ & H2 & _).
  - right. vm_compute. discriminate.
  - exact (conj H1 H2).
Defined.

(** After [playTrack] on a track of the playlist the state is the old one
    but for the index and the flag, and the element is still mounted. *)
Lemma playTrack_after ok index w audio :
  0 ≤ index < size_of w → audioRef (refs w) = Some audio →
  let w' := playTrack ok index w in
  currentTrackIndex (st w') = index
  ∧ playlist (st w') = playlist (st w)
  ∧ isShuffle (st w') = isShuffle (st w)
  ∧ size_of w' = size_of w
  ∧ ∃ audio', audioRef (refs w') = Some audio'.
Proof.
  intros Hr Ha. destruct (in_range_track index w Hr) as [track Ht].
  destruct (playTrack_in_range ok index w track audio Hr Ht Ha)
    as (Hst & Haud & _).
  cbv zeta. unfold size_of. rewrite Hst, Haud. cbn. repeat split. by eexists.
Qed.

(** X2.  With shuffle off and a track active, [next] followed by [previous]
    comes back to the same active index, and so does [previous] followed
    by [next]. *)
Theorem next_prev_round_trip (rnd1 rnd2 : Q) (ok1 ok2 : bool) (w : World)
    audio :
  isShuffle (st w) = false →
  audioRef (refs w) = Some audio →
  0 ≤ currentTrackIndex (st w) < size_of w →
  currentTrackIndex (st (prevTrack ok2 (nextTrack rnd1 ok1 w)))
  = currentTrackIndex (st w)
  ∧ currentTrackIndex (st (nextTrack rnd2 ok2 (prevTrack ok1 w)))
    = currentTrackIndex (st w).
Proof.
  intros Hsh Ha Hc.
  assert (Hne : playlist (st w) ≠ []).
  { intros He. unfold size_of in Hc. rewrite He in Hc. cbn in Hc. lia. }
  pose proof (size_of_pos w Hne) as Hpos.
  set (cur := currentTrackIndex (st w)) in *. set (n := size_of w) in *.
  assert (Hc' : -1 ≤ cur < n) by lia.
  destruct (next_index_mod cur n Hpos Hc') as [Hneq Hnb].
  destruct (prev_index_mod cur n Hpos Hc') as [Hpeq Hpb].
  split.
  - rewrite (nextTrack_plays rnd1 ok1 w Hne Hsh). fold cur n.
    destruct (playTrack_after ok1 _ w audio Hnb Ha)
      as (Hi & Hpl & _ & Hsz & audio' & Ha').
    set (w1 := playTrack ok1 (Z.rem (cur + 1) n) w) in *.
    assert (Hne1 : playlist (st w1) ≠ []) by by rewrite Hpl.
    rewrite (prevTrack_plays ok2 w1 Hne1), Hi, Hsz. fold n.
    assert (Hb1 : -1 ≤ Z.rem (cur + 1) n < n) by lia.
    destruct (prev_index_mod _ n Hpos Hb1) as [Heq Hb].
    assert (Hb' : 0 ≤ Z.rem (Z.rem (cur + 1) n - 1 + n) n < size_of w1)
      by (rewrite Hsz; exact Hb).
    destruct (playTrack_after ok2 _ w1 audio' Hb' Ha') as (-> & _).
    rewrite Heq, Hneq. rewrite Zminus_mod_idemp_l.
    replace (cur + 1 - 1) with cur by lia. apply Z.mod_small. lia.
  - rewrite (prevTrack_plays ok1 w Hne). fold cur n.
    destruct (playTrack_after ok1 _ w audio Hpb Ha)
      as (Hi & Hpl & Hsh1 & Hsz & audio' & Ha').
    set (w1 := playTrack ok1 (Z.rem (cur - 1 + n) n) w) in *.
    assert (Hne1 : playlist (st w1) ≠ []) by by rewrite Hpl.
    rewrite (nextTrack_plays rnd2 ok2 w1 Hne1) by by rewrite Hsh1.
    rewrite Hi, Hsz. fold n.
    assert (Hb1 : -1 ≤ Z.rem (cur - 1 + n) n < n) by lia.
    destruct (next_index_mod _ n Hpos Hb1) as [Heq Hb].
    assert (Hb' : 0 ≤ Z.rem (Z.rem (cur - 1 + n) n + 1) n < size_of w1)
      by (rewrite Hsz; exact Hb).
    destruct (playTrack_after ok2 _ w1 audio' Hb' Ha') as (-> & _).
    rewrite Heq, Hpeq. rewrite Zplus_mod_idemp_l.
    replace (cur - 1 + 1) with cur by lia. apply Z.mod_small. lia.
Qed.

Lemma next_prev_round_trip_witness :
  currentTrackIndex (st (prevTrack true (nextTrack 0%Q true playingB))) = 1.
Proof.
  refine (proj1 (next_prev_round_trip 0%Q 0%Q true true playingB
            (Audio.play true (Audio.set_src 0%nat mounted)) _ _ _)).
  - reflexivity.
  - reflexivity.
  - vm_compute. split; [discriminate | reflexivity].
Defined.

(** X3.  The play button with a track active, the element mounted: the flag is
    flipped, the element is paused when the flag was on, and the index,
    the playlist and the object URLs stay; a second press brings the flag
    back. *)
Theorem togglePlay_with_active_track (ok ok' : bool) (w : World) audio :
  audioRef (refs w) = Some audio →
  currentTrackIndex (st w) ≠ -1 →
  let w' := togglePlay ok w in
  isPlaying (st w') = negb (isPlaying (st w))
  ∧ currentTrackIndex (st w') = currentTrackIndex (st w)
  ∧ playlist (st w') = playlist (st w)
  ∧ env w' = env w
  ∧ Audio.src <$> audioRef (refs w') = Some (Audio.src audio)
  ∧ (isPlaying (st w) = true →
     Audio.paused <$> audioRef (refs w') = Some true)
  ∧ isPlaying (st (togglePlay ok' w')) = isPlaying (st w).
Proof.
  intros Ha Hcur.
  assert (Hstep : ∀ o v a, audioRef (refs v) = Some a →
            currentTrackIndex (st v) ≠ -1 →
            isPlaying (st (togglePlay o v)) = negb (isPlaying (st v))
            ∧ currentTrackIndex (st (togglePlay o v)) = currentTrackIndex (st v)
            ∧ playlist (st (togglePlay o v)) = playlist (st v)
            ∧ env (togglePlay o v) = env v
            ∧ Audio.src <$> audioRef (refs (togglePlay o v))
              = Some (Audio.src a)
            ∧ (isPlaying (st v) = true →
               Audio.paused <$> audioRef (refs (togglePlay o v)) = Some true)).
  { intros o v a Hv Hc. unfold togglePlay. rewrite Hv.
    destruct (Z.eqb_spec (currentTrackIndex (st v)) (-1)); [done|].
    cbn [andb]. destruct (isPlaying (st v)); cbn;
      rewrite ?initAudioContext_st, ?initAudioContext_env,
        ?initAudioContext_audioRef, ?Hv; done. }
  cbv zeta. destruct (Hstep ok w audio Ha Hcur) as (H1 & H2 & H3 & H4 & H5 & H6).
  repeat split; try done.
  destruct (audioRef (refs (togglePlay ok w))) as [a'|] eqn:Ha'; [|done].
  destruct (Hstep ok' (togglePlay ok w) a' Ha' ltac:(by rewrite H2))
    as (-> & _).
  rewrite H1. apply negb_involutive.
Qed.

Lemma togglePlay_with_active_track_witness :
  isPlaying (st (togglePlay true playingB)) = negb (isPlaying (st playingB))
  ∧ isPlaying (st (togglePlay true (togglePlay true playingB)))
    = isPlaying (st playingB).
Proof.
  pose proof (togglePlay_with_active_track true true playingB
                (Audio.play true (Audio.set_src 0%nat mounted))) as H.
  cbv zeta in H. destruct H as (H1 & _ & _ & _ & _ & _ & H2).
  - reflexivity.
  - vm_compute. discriminate.
  - exact (conj H1 H2).
Defined.

(** X4.  The play button with no track active and a non-empty playlist loads
    and starts the first track. *)
Theorem togglePlay_starts_first_track (ok : bool) (w : World) audio :
  audioRef (refs w) = Some audio →
  currentTrackIndex (st w) = -1 →
  playlist (st w) ≠ [] →
  togglePlay ok w = playTrack ok 0 w
  ∧ currentTrackIndex (st (togglePlay ok w)) = 0
  ∧ isPlaying (st (togglePlay ok w)) = ok
  ∧ ∃ track, playlist (st w) !! 0%nat = Some track
             ∧ loaded track (togglePlay ok w).
Proof.
  intros Ha Hcur Hne. pose proof (size_of_pos w Hne) as Hpos.
  assert (Heq : togglePlay ok w = playTrack ok 0 w).
  { unfold togglePlay. rewrite Ha, Hcur. fold (size_of w).
    by destruct (Z.ltb_spec 0 (size_of w)); [|lia]. }
  assert (H0 : 0 ≤ 0 < size_of w) by lia.
  rewrite Heq. destruct (playTrack_index ok 0 w audio H0 Ha) as (H1 & H2 & _).
  destruct (in_range_track 0 w H0) as [track Ht].
  repeat split; try done. exists track. split; [done|].
  by eapply playTrack_loaded.
Qed.

Lemma togglePlay_starts_first_track_witness :
  currentTrackIndex (st (togglePlay true threeTracks)) = 0
  ∧ isPlaying (st (togglePlay true threeTracks)) = true.
Proof.
  pose proof (togglePlay_starts_first_track true threeTracks mounted) as H.
  destruct H as (_ & H1 & H2 & _).
  - reflexivity.
  - reflexivity.
  - discriminate.
  - exact (conj H1 H2).
Defined.

(** X5.  Removing a track above the active index leaves the active index, the
    track it names and the playback state alone; the playlist is one
    shorter. *)
Theorem remove_after_active_keeps_index (index : Z) (w : World) :
  currentTrackIndex (st w) < index < size_of w →
  0 ≤ index →
  let cur := currentTrackIndex (st w) in
  let w' := removeTrack index w in
  currentTrackIndex (st w') = cur
  ∧ playlist (st w') = delete (Z.to_nat index) (playlist (st w))
  ∧ (0 ≤ cur →
     playlist (st w') !! Z.to_nat cur = playlist (st w) !! Z.to_nat cur)
  ∧ size_of w' = size_of w - 1
  ∧ isPlaying (st w') = isPlaying (st w)
  ∧ refs w' = refs w
  ∧ env w' = env w.
Proof.
  intros Hi H0 cur. unfold removeTrack. fold cur.
  destruct (Z.eqb_spec index cur); [lia|].
  destruct (Z.ltb_spec index cur); [lia|]. cbn.
  rewrite splice1_in_range by (unfold size_of in Hi; lia).
  repeat split.
  - intros Hc. apply list_lookup_delete_lt. lia.
  - unfold size_of in *. cbn.
    rewrite length_delete by (apply lookup_lt_is_Some; lia). lia.
Qed.

Lemma remove_after_active_keeps_index_witness :
  currentTrackIndex (st (removeTrack 2 playingB)) = 1
  ∧ Track.name <$> playlist (st (removeTrack 2 playingB)) = ["A"; "B"].
Proof.
  pose proof (remove_after_active_keeps_index 2 playingB) as H.
  cbv zeta in H. destruct H as (H1 & H2 & _).
  - vm_compute. split; reflexivity.
  - discriminate.
  - split; [exact H1 | by rewrite H2].
Defined.

(** *** Shuffle *)





(** ** What is rendered *)

Lemma reachable_ui_playingB : reachable_ui sampleUUID playingB.
Proof.
  apply (reachable_ui_step sampleUUID (ClickTrack 1 true) threeTracks).
  - apply (reachable_ui_step sampleUUID
             (Drop [fileA; cover; fileB; fileC]) init); [constructor | exact I].
  - vm_compute. split; [discriminate | reflexivity].
Qed.

Lemma renderRows_lookup w i r :
  renderRows w !! i = Some r →
  ∃ track, playlist (st w) !! i = Some track
           ∧ rowName r = Track.name track
           ∧ rowActive r = (currentTrackIndex (st w) =? Z.of_nat i).
Proof.
  unfold renderRows. rewrite list_lookup_imap.
  destruct (playlist (st w) !! i) as [track|]; [|done].
  cbn. intros [= <-]. by exists track.
Qed.

(** X7.  In every world reached through the interface the render goes through
    (the heading never reads the name of a missing entry).  There is one
    row per track; a row is drawn active exactly when its position is the
    active index; with a track active the heading is the name on the
    active row, and with none it is the placeholder and no row is
    active. *)
Theorem render_defined_and_consistent randomUUID (w : World) :
  reachable_ui randomUUID w →
  ∃ v, render w = Some v
       ∧ length (rows v) = length (playlist (st w))
       ∧ footerCount v = length (rows v)
       ∧ (∀ i r, rows v !! i = Some r →
            (rowActive r = true ↔ currentTrackIndex (st w) = Z.of_nat i)
            ∧ (rowActive r = true → title v = rowName r))
       ∧ (currentTrackIndex (st w) ≠ -1 →
          ∃ r, rows v !! Z.to_nat (currentTrackIndex (st w)) = Some r
               ∧ rowActive r = true)
       ∧ (currentTrackIndex (st w) = -1 →
          title v = selectMusic ∧ ∀ r, r ∈ rows v → rowActive r = false).
Proof.
  intros Hr. destruct (reachable_ui_position _ _ Hr) as [_ Hc].
  unfold size_of in Hc.
  assert (Ht : ∃ t, renderTitle w = Some t
             ∧ (currentTrackIndex (st w) = -1 → t = selectMusic)
             ∧ (∀ track, 0 ≤ currentTrackIndex (st w) →
                  playlist (st w) !! Z.to_nat (currentTrackIndex (st w))
                  = Some track → t = Track.name track)).
  { unfold renderTitle.
    destruct (Z.eqb_spec (currentTrackIndex (st w)) (-1)) as [He|Hn].
    - exists selectMusic. repeat split. intros track H0. lia.
    - destruct (Z.ltb_spec (currentTrackIndex (st w)) 0); [lia|].
      destruct (lookup_lt_is_Some_2 (playlist (st w))
                  (Z.to_nat (currentTrackIndex (st w))) ltac:(lia))
        as [track Htrack].
      exists (Track.name track). rewrite Htrack. repeat split; [done|].
      by intros track' _ [= <-]. }
  destruct Ht as (t & Htitle & Hnone & Hsome).
  unfold render. rewrite Htitle. eexists. split; [done|]. cbn.
  assert (Hlen : length (renderRows w) = length (playlist (st w)))
    by apply length_imap.
  split; [done|]. split; [done|]. split; [|split].
  - intros i r Hi. destruct (renderRows_lookup w i r Hi) as (track & Hl & Hn & Ha).
    rewrite Ha. split; [apply Z.eqb_eq|].
    intros He%Z.eqb_eq. rewrite Hn. apply Hsome; [lia|].
    by rewrite He, Nat2Z.id.
  - intros Hn.
    destruct (lookup_lt_is_Some_2 (renderRows w)
                (Z.to_nat (currentTrackIndex (st w))) ltac:(lia)) as [r Hrow].
    exists r. split; [done|].
    destruct (renderRows_lookup w _ r Hrow) as (_ & _ & _ & ->).
    apply Z.eqb_eq. lia.
  - intros He. split; [by apply Hnone|].
    intros r Hin. apply list_elem_of_lookup in Hin as [i Hi].
    destruct (renderRows_lookup w i r Hi) as (_ & _ & _ & ->).
    apply Z.eqb_neq. lia.
Qed.

Lemma render_defined_and_consistent_witness :
  ∃ v, render playingB = Some v ∧ title v = "B".
Proof.
  destruct (render_defined_and_consistent sampleUUID playingB
              reachable_ui_playingB) as (v & Hv & _).
  exists v. split; [exact Hv|].
  vm_compute in Hv. injection Hv as <-. reflexivity.
Defined.

(** ** More on ingestion *)

Lemma newTracks_app randomUUID k (a b : list File) :
  newTracks randomUUID k (a ++ b)
  = (newTracks randomUUID k a ++ newTracks randomUUID (k + length a) b)%list.
Proof.
  unfold newTracks. rewrite imap_app. f_equal.
  apply imap_ext. intros i f _. cbn. by rewrite Nat.add_assoc.
Qed.

(** X8.  Two batches ingested one after the other leave the world that the
    two ingested as one batch would: the same tracks in the same order,
    with the same identifiers. *)
Theorem ingest_batches_compose (randomUUID : nat → string)
    (files1 files2 : list File) (w : World) :
  handleDrop randomUUID files2 (handleDrop randomUUID files1 w)
  = handleDrop randomUUID (files1 ++ files2) w.
Proof.
  destruct files1 as [|f1 files1]; [done|].
  destruct files2 as [|f2 files2].
  { by rewrite app_nil_r. }
  unfold handleDrop.
  change (0 <? length (f1 :: files1))%nat with true.
  change (0 <? length (f2 :: files2))%nat with true.
  change (0 <? length ((f1 :: files1) ++ f2 :: files2))%nat with true.
  cbv iota. rewrite List.filter_app, newTracks_app, length_app.
  unfold setPlaylist, drawUUIDs. cbn.
  by rewrite app_assoc, Nat.add_assoc.
Qed.

(** [playTrack] writes the active index, the playing flag, the audio
    element's source and the object URLs, and nothing else. *)
Lemma playTrack_frame ok index w :
  let w' := playTrack ok index w in
  playlist (st w') = playlist (st w)
  ∧ volume (st w') = volume (st w)
  ∧ isMuted (st w') = isMuted (st w)
  ∧ isShuffle (st w') = isShuffle (st w)
  ∧ aiAnalysis (st w') = aiAnalysis (st w)
  ∧ isAnalyzing (st w') = isAnalyzing (st w)
  ∧ uuidCount (env w') = uuidCount (env w)
  ∧ requests (env w') = requests (env w)
  ∧ Audio.volume <$> audioRef (refs w') = Audio.volume <$> audioRef (refs w).
Proof.
  cbv zeta. unfold playTrack.
  destruct (out_of_range index (initAudioContext w));
    [by rewrite initAudioContext_st, initAudioContext_env,
          initAudioContext_audioRef|].
  rewrite initAudioContext_st, initAudioContext_audioRef.
  destruct (playlist (st w) !! Z.to_nat index);
    [|by rewrite initAudioContext_st, initAudioContext_env,
           initAudioContext_audioRef].
  destruct (audioRef (refs w)) as [audio|] eqn:Ha;
    [|by rewrite initAudioContext_st, initAudioContext_env,
           initAudioContext_audioRef, Ha].
  destruct (Audio.src audio); cbn;
    rewrite ?initAudioContext_st, ?initAudioContext_env,
      ?initAudioContext_audioRef, ?Ha; done.
Qed.

(** Only ingestion and removal change the playlist or draw identifiers. *)
Lemma handle_playlist_cases randomUUID e w :
  let w' := handle randomUUID e w in
  (playlist (st w') = playlist (st w)
   ∧ uuidCount (env w') = uuidCount (env w))
  ∨ (∃ files,
       (e = Drop files ∨ e = FileSelect files)
       ∧ w' = handleDrop randomUUID files w)
  ∨ (∃ index,
       e = ClickRemove index
       ∧ playlist (st w') = splice1 index (playlist (st w))
       ∧ uuidCount (env w') = uuidCount (env w)).
Proof.
  cbv zeta. destruct e; cbn [handle].
  - right. left. exists files. by split; [left|].
  - right. left. exists files. by split; [right|].
  - left. by destruct (playTrack_frame play_ok index w) as (? & _ & _ & _ & _ & _ & ? & _).
  - left. unfold togglePlay. destruct (audioRef (refs w)); [|done].
    destruct (_ && _).
    + by destruct (playTrack_frame play_ok 0 w) as (? & _ & _ & _ & _ & _ & ? & _).
    + destruct (isPlaying (st w)); cbn;
        rewrite ?initAudioContext_st, ?initAudioContext_env; done.
  - left. unfold nextTrack. destruct (_ =? _); [done|].
    by destruct (playTrack_frame play_ok
                   (if isShuffle (st w)
                    then randomIndex rnd (Z.of_nat (length (playlist (st w))))
                    else Z.rem (currentTrackIndex (st w) + 1)
                           (Z.of_nat (length (playlist (st w))))) w)
      as (? & _ & _ & _ & _ & _ & ? & _).
  - left. unfold prevTrack. destruct (_ =? _); [done|].
    by destruct (playTrack_frame play_ok
                   (Z.rem (currentTrackIndex (st w) - 1
                           + Z.of_nat (length (playlist (st w))))
                      (Z.of_nat (length (playlist (st w))))) w)
      as (? & _ & _ & _ & _ & _ & ? & _).
  - left. unfold nextTrack. destruct (_ =? _); [done|].
    by destruct (playTrack_frame play_ok
                   (if isShuffle (st w)
                    then randomIndex rnd (Z.of_nat (length (playlist (st w))))
                    else Z.rem (currentTrackIndex (st w) + 1)
                           (Z.of_nat (length (playlist (st w))))) w)
      as (? & _ & _ & _ & _ & _ & ? & _).
  - right. right. exists index. split; [done|].
    rewrite removeTrack_env. split; [|done].
    unfold removeTrack. by destruct (_ =? _); [|destruct (_ <? _)].
  - by left.
  - by left.
  - by left.
  - by left.
  - left. unfold analyzePlaylist. destruct (_ =? _)%nat; [done|].
    destruct (noKey _); [done|]. by destruct outcome.
Qed.

(** X9.  Playing, pausing, skipping, shuffling, muting, seeking and analysing
    never add, drop or reorder tracks: the playlist is changed by
    ingestion and by removal alone. *)
Theorem playback_never_changes_playlist (randomUUID : nat → string)
    (e : Event) (w : World) :
  match e with
  | Drop _ | FileSelect _ | ClickRemove _ => True
  | _ => playlist (st (handle randomUUID e w)) = playlist (st w)
  end.
Proof.
  destruct (handle_playlist_cases randomUUID e w)
    as [[Hp _] | [(files & [-> | ->] & _) | (index & -> & _)]];
    [by destruct e | done..].
Qed.

Lemma handleDrop_ids randomUUID files w :
  Inj (=) (=) randomUUID →
  NoDup (Track.id <$> playlist (st w)) ∧ ids_drawn randomUUID w →
  NoDup (Track.id <$> playlist (st (handleDrop randomUUID files w)))
  ∧ ids_drawn randomUUID (handleDrop randomUUID files w).
Proof.
  intros Hinj [Hnodup Hdrawn].
  set (c := uuidCount (env w)).
  set (new := newTracks randomUUID c (List.filter isAudio files)).
  assert (Hpl : playlist (st (handleDrop randomUUID files w))
                = (playlist (st w) ++ new)%list) by apply handleDrop_playlist.
  assert (Hcount : uuidCount (env (handleDrop randomUUID files w))
                   = (c + length new)%nat).
  { unfold new. by rewrite handleDrop_uuidCount, newTracks_length. }
  split.
  - rewrite Hpl, fmap_app. unfold new. rewrite newTracks_ids.
    apply NoDup_app. split; [done|]. split.
    + intros x Hold Hnew.
      apply list_elem_of_fmap in Hold as (t & -> & Ht).
      destruct (Hdrawn t Ht) as (k & Hk & Hid).
      apply list_elem_of_fmap in Hnew as (j & Hj & Hseq).
      apply elem_of_seq in Hseq. rewrite Hid in Hj.
      apply Hinj in Hj. unfold c in Hseq. lia.
    + apply NoDup_fmap_2; [done | apply NoDup_seq].
  - intros t. rewrite Hpl, Hcount, elem_of_app. intros [Hold | Hnew].
    + destruct (Hdrawn t Hold) as (k & Hk & Hid).
      exists k. split; [unfold c; lia | done].
    + apply list_elem_of_lookup in Hnew as [i Hi].
      destruct (newTracks_lookup randomUUID c _ i t Hi) as (_ & Hid & _).
      exists (c + i)%nat. split; [|done].
      apply lookup_lt_Some in Hi. lia.
Qed.

(** X10.  When [crypto.randomUUID] never returns the same value twice, the
    tracks of the playlist carry pairwise distinct identifiers (the keys of
    the rendered rows) in every world the component can reach, and each is
    one of the values drawn so far. *)
Theorem playlist_ids_distinct (randomUUID : nat → string) (w : World) :
  Inj (=) (=) randomUUID →
  reachable randomUUID w →
  NoDup (Track.id <$> playlist (st w)) ∧ ids_drawn randomUUID w.
Proof.
  intros Hinj. induction 1 as [|e w _ IH].
  - split; [constructor|]. intros t Ht. cbn in Ht. by apply elem_of_nil in Ht.
  - destruct (handle_playlist_cases randomUUID e w)
      as [[Hp Hc] | [(files & _ & ->) | (index & _ & Hp & Hc)]].
    + unfold ids_drawn. rewrite Hp, Hc. exact IH.
    + by apply handleDrop_ids.
    + destruct IH as [Hnodup Hdrawn]. unfold ids_drawn. rewrite Hp, Hc.
      unfold splice1. split.
      * rewrite list_fmap_delete.
        eapply sublist_NoDup; [exact Hnodup | apply sublist_delete].
      * intros t Ht. apply Hdrawn.
        eapply elem_of_sublist; [exact Ht | apply sublist_delete].
Qed.

Lemma playlist_ids_distinct_witness :
  NoDup (Track.id <$> playlist (st playingB)).
Proof.
  pose proof (playlist_ids_distinct sampleUUID playingB) as H.
  destruct H as [H _].
  - unfold sampleUUID. apply _.
  - apply (reachable_run sampleUUID
             [Drop [fileA; cover; fileB; fileC]; ClickTrack 1 true]).
  - exact H.
Defined.

(** ** Volume and the audio graph *)

(** X11.  In every world the component can reach, the volume of the audio
    element is the volume of the state, or zero while muted. *)
Theorem element_volume_follows_state (randomUUID : nat → string)
    (w : World) :
  reachable randomUUID w →
  Audio.volume <$> audioRef (refs w)
  = Some (if isMuted (st w) then 0%Q else volume (st w)).
Proof.
  induction 1 as [|e w _ IH]; [done|].
  assert (Hplay : ∀ ok index,
            Audio.volume <$> audioRef (refs (playTrack ok index w))
            = Some (if isMuted (st (playTrack ok index w)) then 0%Q
                    else volume (st (playTrack ok index w)))).
  { intros ok index.
    destruct (playTrack_frame ok index w)
      as (_ & -> & -> & _ & _ & _ & _ & _ & ->). exact IH. }
  destruct (audioRef (refs w)) as [audio|] eqn:Ha; [|done].
  destruct e; cbn [handle].
  - unfold handleDrop. destruct (_ <? _)%nat; cbn; by rewrite ?Ha.
  - unfold handleFileSelect. destruct (_ <? _)%nat; cbn; by rewrite ?Ha.
  - apply Hplay.
  - unfold togglePlay. rewrite Ha. destruct (_ && _); [apply Hplay|].
    destruct (isPlaying (st w)); cbn;
      rewrite ?initAudioContext_st, ?initAudioContext_audioRef, ?Ha; done.
  - unfold nextTrack. destruct (_ =? _); [by rewrite Ha | apply Hplay].
  - unfold prevTrack. destruct (_ =? _); [by rewrite Ha | apply Hplay].
  - unfold nextTrack. destruct (_ =? _); [by rewrite Ha | apply Hplay].
  - unfold removeTrack.
    destruct (_ =? _); [|destruct (_ <? _)]; cbn; by rewrite ?Ha.
  - cbn. by rewrite Ha.
  - cbn. by rewrite Ha.
  - cbn. by rewrite Ha.
  - cbn. by rewrite Ha.
  - unfold analyzePlaylist. destruct (_ =? _)%nat; [by rewrite Ha|].
    destruct (noKey _); [by cbn; rewrite Ha|].
    destruct outcome; cbn; by rewrite Ha.
Qed.

Lemma element_volume_follows_state_witness :
  Audio.volume <$>
    audioRef (refs (run sampleUUID [ClickTrack 0 true; ClickMute] threeTracks))
  = Some 0%Q.
Proof.
  apply (element_volume_follows_state sampleUUID
           (run sampleUUID [ClickTrack 0 true; ClickMute] threeTracks)).
  apply (reachable_run sampleUUID
           [Drop [fileA; cover; fileB; fileC]; ClickTrack 0 true; ClickMute]).
Defined.

Lemma initAudioContext_built w c :
  audioContextRef (refs w) = Some c →
  analyserRef (refs (initAudioContext w)) = analyserRef (refs w)
  ∧ audioContextRef (refs (initAudioContext w)) = Some running.
Proof.
  intros Hc. unfold initAudioContext. rewrite Hc. by destruct c.
Qed.

Lemma playTrack_graph ok index w :
  analyserRef (refs (playTrack ok index w))
  = analyserRef (refs (initAudioContext w))
  ∧ audioContextRef (refs (playTrack ok index w))
    = audioContextRef (refs (initAudioContext w)).
Proof.
  unfold playTrack. destruct (out_of_range _ _); [done|].
  destruct (playlist _ !! _); [|done].
  destruct (audioRef _) as [audio|]; [|done].
  by destruct (Audio.src audio).
Qed.

(** X12.  Once the audio context and its analyser are built, no handler tears
    them down or builds others: the analyser stays the same node and a
    context stays in place; load-and-play leaves the context running. *)
Theorem audio_graph_never_torn_down (randomUUID : nat → string)
    (e : Event) (w : World) c a :
  audioContextRef (refs w) = Some c →
  analyserRef (refs w) = Some a →
  analyserRef (refs (handle randomUUID e w)) = Some a
  ∧ is_Some (audioContextRef (refs (handle randomUUID e w)))
  ∧ (∀ ok index,
       analyserRef (refs (playTrack ok index w)) = Some a
       ∧ audioContextRef (refs (playTrack ok index w)) = Some running).
Proof.
  intros Hc Ha.
  destruct (initAudioContext_built w c Hc) as [Hia Hic].
  assert (Hplay : ∀ ok index,
            analyserRef (refs (playTrack ok index w)) = Some a
            ∧ audioContextRef (refs (playTrack ok index w)) = Some running).
  { intros ok index. destruct (playTrack_graph ok index w) as [-> ->].
    by rewrite Hia, Hic, Ha. }
  assert (Hplay' : ∀ ok index,
            analyserRef (refs (playTrack ok index w)) = Some a
            ∧ is_Some (audioContextRef (refs (playTrack ok index w)))).
  { intros ok index. destruct (Hplay ok index) as [-> ->]. by split. }
  assert (Hsame : analyserRef (refs w) = Some a
                  ∧ is_Some (audioContextRef (refs w))).
  { by rewrite Hc, Ha. }
  split; [|split; [|exact Hplay]].
  - destruct e; cbn [handle].
    + unfold handleDrop. by destruct (_ <? _)%nat.
    + unfold handleFileSelect. by destruct (_ <? _)%nat.
    + apply Hplay.
    + unfold togglePlay. destruct (audioRef (refs w)); [|done].
      destruct (_ && _); [apply Hplay|].
      destruct (isPlaying (st w)); cbn; [done | by rewrite Hia].
    + unfold nextTrack. destruct (_ =? _); [done | apply Hplay].
    + unfold prevTrack. destruct (_ =? _); [done | apply Hplay].
    + unfold nextTrack. destruct (_ =? _); [done | apply Hplay].
    + unfold removeTrack. by destruct (_ =? _); [|destruct (_ <? _)].
    + done.
    + done.
    + done.
    + done.
    + unfold analyzePlaylist. destruct (_ =? _)%nat; [done|].
      destruct (noKey _); [done|]. by destruct outcome.
  - destruct e; cbn [handle].
    + unfold handleDrop. destruct (_ <? _)%nat; apply Hsame.
    + unfold handleFileSelect. destruct (_ <? _)%nat; apply Hsame.
    + apply Hplay'.
    + unfold togglePlay. destruct (audioRef (refs w)); [|apply Hsame].
      destruct (_ && _); [apply Hplay'|].
      destruct (isPlaying (st w)); cbn; [apply Hsame | by rewrite Hic].
    + unfold nextTrack. destruct (_ =? _); [apply Hsame | apply Hplay'].
    + unfold prevTrack. destruct (_ =? _); [apply Hsame | apply Hplay'].
    + unfold nextTrack. destruct (_ =? _); [apply Hsame | apply Hplay'].
    + unfold removeTrack.
      destruct (_ =? _); [|destruct (_ <? _)]; apply Hsame.
    + apply Hsame.
    + apply Hsame.
    + apply Hsame.
    + apply Hsame.
    + unfold analyzePlaylist. destruct (_ =? _)%nat; [apply Hsame|].
      destruct (noKey _); [apply Hsame|]. destruct outcome; apply Hsame.
Qed.

Lemma audio_graph_never_torn_down_witness :
  analyserRef (refs (handle sampleUUID (ClickRemove 1) playingB))
  = Some {| fftSize := 256 |}.
Proof.
  refine (proj1 (audio_graph_never_torn_down sampleUUID (ClickRemove 1)
                   playingB running {| fftSize := 256 |} _ _)).
  - reflexivity.
  - reflexivity.
Defined.

(** ** Removal followed by play *)


Lemma togglePlay_none ok w audio :
  audioRef (refs w) = Some audio →
  currentTrackIndex (st w) = -1 →
  playlist (st w) ≠ [] →
  togglePlay ok w = playTrack ok 0 w.
Proof.
  intros Ha Hcur Hne. pose proof (size_of_pos w Hne) as Hpos.
  unfold togglePlay. rewrite Ha, Hcur. fold (size_of w).
  by destruct (Z.ltb_spec 0 (size_of w)); [|lia].
Qed.

(** X14.  The URL that [removeTrack] leaves behind is released by the next
    load-and-play.  In a reachable world with a track loaded and active
    and at least two tracks, removing the active track and pressing play
    starts the first remaining track; its URL is then the only one
    outstanding, and the URL of the removed track is not. *)
Theorem remove_active_then_play (randomUUID : nat → string) (ok : bool)
    (w : World) audio u :
  reachable randomUUID w →
  audioRef (refs w) = Some audio →
  Audio.src audio = Some u →
  0 ≤ currentTrackIndex (st w) < size_of w →
  2 ≤ size_of w →
  let w' := togglePlay ok (removeTrack (currentTrackIndex (st w)) w) in
  currentTrackIndex (st w') = 0
  ∧ isPlaying (st w') = ok
  ∧ ∃ track,
      delete (Z.to_nat (currentTrackIndex (st w))) (playlist (st w)) !! 0%nat
      = Some track
      ∧ loaded track w'
      ∧ objectURLs (env w') = {[ urlCount (env w) := Track.file track ]}
      ∧ u ∉ outstanding w'.
Proof.
  intros Hreach Ha Hsrc Hc Hn. cbv zeta.
  set (cur := currentTrackIndex (st w)) in *.
  set (w1 := removeTrack cur w).
  pose proof (reachable_urls_ok _ _ Hreach) as Hok.
  assert (Hu : (u < urlCount (env w))%nat).
  { destruct Hok as (_ & _ & Hlt). apply Hlt. by rewrite Ha, <- Hsrc. }
  assert (Hpl1 : playlist (st w1) = delete (Z.to_nat cur) (playlist (st w))).
  { unfold w1, removeTrack. fold cur. rewrite Z.eqb_refl. cbn.
    apply splice1_in_range. unfold size_of in Hc. lia. }
  assert (Hcur1 : currentTrackIndex (st w1) = -1).
  { unfold w1, removeTrack. fold cur. by rewrite Z.eqb_refl. }
  assert (Ha1 : audioRef (refs w1)
                = Some (Audio.set_currentTime 0%Q (Audio.pause audio))).
  { unfold w1, removeTrack. fold cur. rewrite Z.eqb_refl. cbn. by rewrite Ha. }
  assert (Henv1 : env w1 = env w) by apply removeTrack_env.
  assert (Hsz1 : size_of w1 = size_of w - 1).
  { unfold size_of in *. rewrite Hpl1.
    rewrite length_delete by (apply lookup_lt_is_Some; lia). lia. }
  assert (Hne1 : playlist (st w1) ≠ []).
  { intros He. unfold size_of in *. rewrite He in Hsz1. cbn in Hsz1. lia. }
  assert (Hok1 : urls_ok (urlview w1)).
  { replace (urlview w1) with (urlview w); [done|].
    unfold urlview, w1. by rewrite removeTrack_env, removeTrack_src. }
  assert (H0 : 0 ≤ 0 < size_of w1) by lia.
  destruct (in_range_track 0 w1 H0) as [track Ht].
  rewrite (togglePlay_none ok w1 _ Ha1 Hcur1 Hne1).
  destruct (playTrack_index ok 0 w1 _ H0 Ha1) as (Hi & Hp & _).
  destruct (playTrack_replaces ok 0 w1 track _ Hok1 H0 Ht Ha1) as [Hm _].
  split; [done|]. split; [done|].
  exists track. rewrite <- Hpl1. split; [exact Ht|].
  split; [by eapply playTrack_loaded|].
  rewrite Henv1 in Hm. split; [exact Hm|].
  unfold outstanding. rewrite Hm, dom_singleton_L.
  intros Hin%elem_of_singleton. lia.
Qed.

Lemma remove_active_then_play_witness :
  currentTrackIndex (st (togglePlay true (removeTrack 1 playingB))) = 0
  ∧ outstanding (togglePlay true (removeTrack 1 playingB)) = {[ 1%nat ]}.
Proof.
  pose proof (remove_active_then_play sampleUUID true playingB
                (Audio.play true (Audio.set_src 0%nat mounted)) 0%nat) as H.
  cbv zeta in H. destruct H as (H1 & _ & _).
  - apply (reachable_run sampleUUID
             [Drop [fileA; cover; fileB; fileC]; ClickTrack 1 true]).
  - reflexivity.
  - reflexivity.
  - vm_compute. split; [discriminate | reflexivity].
  - vm_compute. discriminate.
  - split; [exact H1 | reflexivity].
Defined.

(** ** More on the AI mood summary *)

Lemma append_assoc (a b c : string) : (a ++ b) ++ c = a ++ (b ++ c).
Proof.
  induction a as [|x a IH]; [done|]. rewrite !append_cons. by rewrite IH.
Qed.

Lemma append_nil_r (a : string) : a ++ EmptyString = a.
Proof.
  induction a as [|x a IH]; [done|]. rewrite append_cons. by rewrite IH.
Qed.

(** Every element of a joined list is a piece of the joined string. *)
Lemma concat_contains (sep : string) (l : list string) (x : string) :
  x ∈ l → ∃ pre post, String.concat sep l = pre ++ x ++ post.
Proof.
  induction l as [|y l IH]; intros Hin; [by apply elem_of_nil in Hin|].
  apply elem_of_cons in Hin as [-> | Hin].
  - destruct l as [|z l].
    + exists EmptyString, EmptyString. cbn. by rewrite append_nil_l, append_nil_r.
    + exists EmptyString, (sep ++ String.concat sep (z :: l)).
      by rewrite append_nil_l.
  - destruct (IH Hin) as (pre & post & Heq). destruct l as [|z l].
    + by apply elem_of_nil in Hin.
    + exists (y ++ sep ++ pre), post.
      change (String.concat sep (y :: z :: l))
        with (y ++ sep ++ String.concat sep (z :: l)).
      by rewrite Heq, !append_assoc.
Qed.

(** X15.  A successful analysis of a non-empty playlist with a credential: one
    request goes out, to the model [gemini-2.5-flash], with a prompt in
    which the name of every track of the playlist occurs; the reply
    becomes the summary, the analysing flag ends off, and playback is not
    touched.  An empty reply leaves the hint on display. *)
Theorem analyze_success_shows_reply (API_KEY : option string)
    (text : string) (w : World) :
  playlist (st w) ≠ [] →
  noKey API_KEY = false →
  let w' := analyzePlaylist API_KEY (Resolved text) w in
  aiAnalysis (st w') = text
  ∧ isAnalyzing (st w') = false
  ∧ (∃ r, requests (env w') = (requests (env w) ++ [r])%list
          ∧ model r = "gemini-2.5-flash"
          ∧ ∀ t, t ∈ playlist (st w) →
              ∃ pre post, contents r = pre ++ Track.name t ++ post)
  ∧ renderAnalysis w'
    = (if String.eqb text EmptyString then pressAnalyzeHint else text)
  ∧ playlist (st w') = playlist (st w)
  ∧ currentTrackIndex (st w') = currentTrackIndex (st w)
  ∧ isPlaying (st w') = isPlaying (st w)
  ∧ refs w' = refs w.
Proof.
  intros Hne Hkey.
  assert (Hlen : (length (playlist (st w)) =? 0)%nat = false).
  { destruct (playlist (st w)); [done | reflexivity]. }
  cbv zeta. unfold analyzePlaylist. rewrite Hlen, Hkey. cbn.
  split; [done|]. split; [done|]. split.
  - eexists. split; [done|]. split; [done|]. cbn.
    intros t Ht.
    destruct (concat_contains ", " (Track.name <$> playlist (st w))
                (Track.name t)) as (pre & post & Heq).
    { apply list_elem_of_fmap. by exists t. }
    unfold prompt, trackNames. rewrite Heq.
    exists ("Analysing the following song list: " ++ pre).
    eexists. rewrite !append_assoc. reflexivity.
  - split; [|done]. unfold renderAnalysis. cbn. by rewrite Hlen.
Qed.

Lemma analyze_success_shows_reply_witness :
  aiAnalysis (st (analyzePlaylist (Some "key") (Resolved "calm") threeTracks))
  = "calm"
  ∧ renderAnalysis
      (analyzePlaylist (Some "key") (Resolved "calm") threeTracks) = "calm".
Proof.
  pose proof (analyze_success_shows_reply (Some "key") "calm" threeTracks)
    as H.
  cbv zeta in H. destruct H as (H1 & _ & _ & H2 & _).
  - discriminate.
  - reflexivity.
  - exact (conj H1 H2).
Defined.

(** ** More on display names *)

(** X16.  [stripExtension] in full: either the name is [stem.ext] for an
    extension [ext] that is not empty and holds no dot and no slash, and
    the result is [stem]; or the name has no such form and is returned as
    it is.  In both cases the result is a prefix of the name. *)
Theorem stripExtension_characterised (s : string) :
  ((∃ stem ext, s = stem ++ String "." ext
                ∧ extTail ext = true
                ∧ stripExtension s = stem)
   ∨ ((∀ stem ext, s = stem ++ String "." ext → extTail ext = false)
      ∧ stripExtension s = s))
  ∧ ∃ rest, s = stripExtension s ++ rest.
Proof.
  assert (Hcases :
    (∃ stem ext, s = stem ++ String "." ext ∧ extTail ext = true)
    ∨ (∀ stem ext, s = stem ++ String "." ext → extTail ext = false)).
  { induction s as [|c s IH].
    - right. intros [|x stem] ext H; [rewrite append_nil_l in H|
                                      rewrite append_cons in H]; discriminate.
    - destruct IH as [(stem & ext & -> & Hext) | Hno].
      + left. exists (String c stem), ext. by rewrite append_cons.
      + destruct (Ascii.eqb_spec c ".") as [->|Hc].
        * destruct (extTail s) eqn:Htail.
          -- left. exists EmptyString, s. by rewrite append_nil_l.
          -- right. intros [|x stem] ext H.
             ++ rewrite append_nil_l in H. by injection H as <-.
             ++ rewrite append_cons in H. injection H as _ ->.
                by apply (Hno stem ext).
        * right. intros [|x stem] ext H.
          -- rewrite append_nil_l in H. by injection H as ? _.
          -- rewrite append_cons in H. injection H as _ ->.
             by apply (Hno stem ext). }
  destruct Hcases as [(stem & ext & -> & Hext) | Hno].
  - split.
    + left. exists stem, ext. split; [done|]. split; [done|].
      by apply stripExtension_cuts.
    + exists (String "." ext). by rewrite stripExtension_cuts.
  - split.
    + right. split; [done|]. by apply stripExtension_keeps.
    + exists EmptyString. by rewrite stripExtension_keeps, append_nil_r.
Qed.

(** ** More on the visualizer *)

Section VisualizerBounds.

Local Open Scope nat_scope.

Lemma byteZ_bounds b : (0 ≤ Visualizer.byteZ b ≤ 255)%Z.
Proof.
  unfold Visualizer.byteZ. pose proof (Byte.to_N_bounded b). lia.
Qed.

Lemma total_bounds l :
  (0 ≤ Visualizer.total l ≤ 255 * Z.of_nat (length l))%Z.
Proof.
  unfold Visualizer.total.
  induction l as [|b l IH]; cbn [length fmap list_fmap foldr]; [lia|].
  pose proof (byteZ_bounds b). lia.
Qed.

Lemma mean_bounds l from n :
  0 < n → (0 <= Visualizer.mean l from n <= 255)%Q.
Proof.
  intros Hn. unfold Visualizer.mean.
  pose proof (total_bounds (take n (drop from l))) as [Hlo Hhi].
  assert (Hlen : length (take n (drop from l)) ≤ n)
    by (rewrite length_take; lia).
  assert (Hpos : (0 < inject_Z (Z.of_nat n))%Q).
  { change 0%Q with (inject_Z 0). rewrite <- Zlt_Qlt. lia. }
  split.
  - apply Qle_shift_div_l; [done|]. rewrite Qmult_0_l.
    change 0%Q with (inject_Z 0). rewrite <- Zle_Qle. done.
  - apply Qle_shift_div_r; [done|].
    change 255%Q with (inject_Z 255). rewrite <- inject_Z_mult, <- Zle_Qle. nia.
Qed.

Lemma scaled_bounds (q k : Q) :
  (0 <= q <= 255)%Q → (0 <= k)%Q → (0 <= q / 255 * k <= k)%Q.
Proof.
  intros [H1 H2] Hk.
  assert (Hq : (q / 255 * k == q * k * (1 # 255))%Q) by field.
  rewrite Hq. split.
  - apply Qmult_le_0_compat; [by apply Qmult_le_0_compat | done].
  - assert (Hle : (q * k <= 255 * k)%Q) by (by apply Qmult_le_compat_r).
    assert (Hk' : (k == 255 * k * (1 # 255))%Q) by field.
    rewrite Hk' at 2. apply Qmult_le_compat_r; done.
Qed.

Lemma step_pos n : 120 ≤ n → 0 < Visualizer.step n.
Proof.
  intros Hn. unfold Visualizer.step, Visualizer.bars.
  apply Nat.div_str_pos. lia.
Qed.

Lemma shifted_bounds (base x k : Q) :
  (0 <= x <= k)%Q → (base <= base + x <= base + k)%Q.
Proof.
  intros [H1 H2]. split.
  - rewrite <- (Qplus_0_r base) at 1.
    apply Qplus_le_compat; [apply Qle_refl | done].
  - apply Qplus_le_compat; [apply Qle_refl | done].
Qed.

(** X17.  With at least 120 bins in the snapshot, every bar is a number in the
    range the drawing code counts on: the value from 0 to 255, the length
    from 0 to 100, the saturation from 80 to 100, the lightness from 50 to
    60, and the hue from 0 up to but not 360. *)
Theorem bars_within_bounds (dataArray : list Byte.byte) (i : nat) :
  120 ≤ length dataArray →
  i < 120 →
  let b := Visualizer.bar dataArray i in
  between 0 255 (Visualizer.barValue b)
  ∧ between 0 100 (Visualizer.barHeight b)
  ∧ between 80 100 (Visualizer.saturation b)
  ∧ between 50 60 (Visualizer.lightness b)
  ∧ (0 <= Visualizer.hue b)%Q ∧ (Visualizer.hue b < 360)%Q.
Proof.
  intros Hlen Hi. cbv zeta. unfold Visualizer.bar. cbn.
  rewrite (value_mean dataArray i Hi (step_pos _ Hlen)).
  pose proof (mean_bounds dataArray (i * Visualizer.step (length dataArray))
                (Visualizer.step (length dataArray)) (step_pos _ Hlen)) as Hm.
  cbn. split; [done|].
  split; [by apply scaled_bounds|].
  split; [apply (shifted_bounds 80 _ 20); by apply scaled_bounds|].
  split; [apply (shifted_bounds 50 _ 10); by apply scaled_bounds|].
  assert (Hhue :
    (inject_Z (Z.of_nat i) / inject_Z (Z.of_nat Visualizer.bars) * 360
     == inject_Z (3 * Z.of_nat i))%Q).
  { rewrite inject_Z_mult. unfold Visualizer.bars.
    change (inject_Z (Z.of_nat 120)) with 120%Q.
    change (inject_Z 3) with 3%Q. field. }
  rewrite Hhue. split.
  - change 0%Q with (inject_Z 0). rewrite <- Zle_Qle. lia.
  - change 360%Q with (inject_Z 360). rewrite <- Zlt_Qlt. lia.
Qed.

Lemma chunk_of_prefix {A} (d : list A) (i s : nat) :
  i < 120 →
  take s (drop (i * s) d) = take s (drop (i * s) (take (120 * s) d)).
Proof.
  intros Hi. rewrite !take_drop_commute, take_take. do 2 f_equal. nia.
Qed.

Lemma bars_within_bounds_witness :
  between 0 100 (Visualizer.barHeight (Visualizer.bar topBinsFull 5))
  ∧ between 80 100 (Visualizer.saturation (Visualizer.bar topBinsFull 5)).
Proof.
  pose proof (bars_within_bounds topBinsFull 5) as H. cbv zeta in H.
  destruct H as (_ & H1 & H2 & _).
  - vm_compute. lia.
  - lia.
  - exact (conj H1 H2).
Defined.

(** X18.  A frame depends on the first [120 * step] bins of the snapshot and on
    nothing else: two snapshots of the same size that agree there are
    drawn alike, whatever the higher bins hold. *)
Theorem draw_reads_leading_bins_only (playing : bool)
    (d1 d2 : list Byte.byte) :
  length d1 = length d2 →
  take (120 * Visualizer.step (length d1)) d1
  = take (120 * Visualizer.step (length d1)) d2 →
  Visualizer.draw playing d1 = Visualizer.draw playing d2.
Proof.
  intros Hlen Hpre. unfold Visualizer.draw. destruct playing; [|done].
  f_equal. apply list_fmap_ext. intros k i Hk.
  apply lookup_seq in Hk as [Heq Hi]. cbn in Heq. subst i.
  unfold Visualizer.bars in Hi.
  assert (Hv : Visualizer.value d1 k = Visualizer.value d2 k).
  { unfold Visualizer.value.
    rewrite !chunkSum_total by done. rewrite <- Hlen.
    rewrite (chunk_of_prefix d1), (chunk_of_prefix d2) by done.
    by rewrite Hpre. }
  unfold Visualizer.bar. by rewrite Hv.
Qed.

Lemma draw_reads_leading_bins_only_witness :
  Visualizer.draw true topBinsFull = Visualizer.draw true silence.
Proof.
  apply (draw_reads_leading_bins_only true topBinsFull silence);
    reflexivity.
Defined.

End VisualizerBounds.
